(** * whoosh.analysis: tokenizers, filters and analyzers

    A shallow embedding of [src/whoosh/analysis.py] and the properties of
    its tokenizer / filter / analyzer pipeline.

    Modelling conventions.

    - The module is Python 2 code ([xrange]); a text value is an 8-bit
      [str], modelled as [string], and the [str] methods ([lower],
      [strip], [islower], [isupper], [isdigit]) are those of the C locale.
    - Python integers are [Z]; offsets computed by the pattern matcher are
      [nat] and are injected into [Z] where the code adds them to
      [start_char].
    - A [Token] uses [__slots__]: a slot that was never assigned is absent
      and reading it raises [AttributeError].  Such slots are [option]
      fields, [None] meaning "never assigned".
    - A generator is the sequence of items it yields followed by either
      normal exhaustion or a propagating exception ([gen]).  Tokenizers
      yield one single [Token] object over and over; an element of a [gen]
      is the state of that object at the moment it is yielded, which is
      what a consumer that reads the token before pulling the next one
      observes.  The loops thread the token through their iterations, so a
      slot that an iteration does not assign keeps its previous content.
      A filter writes to the same object; what it writes to [text],
      [startchar] and [endchar] is assigned again by the pattern
      tokenizers before their next [yield], so the states they yield do
      not depend on the filters downstream.
    - [CamelFilter] and [UnderscoreFilter] read the token again after
      their [yield], when the consumer has had it in hand: they are
      coroutines over the state of the shared token ([Shared]), resumed
      with the state in which the token is handed back. *)

From Stdlib Require Import ZArith QArith Ascii String List Lia Bool.
From stdpp Require Import gmap strings list.

Local Open Scope string_scope.
Local Open Scope Z_scope.

(** ** Characters and [str] methods (C locale) *)

Definition in_range (lo hi c : ascii) : bool :=
  ((nat_of_ascii lo <=? nat_of_ascii c)%nat && (nat_of_ascii c <=? nat_of_ascii hi)%nat)%bool.

Definition is_upper (c : ascii) : bool := in_range "A" "Z" c.
Definition is_lower (c : ascii) : bool := in_range "a" "z" c.
Definition is_digit (c : ascii) : bool := in_range "0" "9" c.

(** [isspace]: space, [\t], [\n], [\v], [\f], [\r]. *)
Definition is_space (c : ascii) : bool :=
  (in_range "009" "013" c || Ascii.eqb c " ")%bool.

Definition lower_char (c : ascii) : ascii :=
  if is_upper c then ascii_of_nat (nat_of_ascii c + 32) else c.

(** [str.lower()] *)
Fixpoint lower (s : string) : string :=
  match s with
  | EmptyString => EmptyString
  | String c s' => String (lower_char c) (lower s')
  end.

Fixpoint str_forallb (p : ascii -> bool) (s : string) : bool :=
  match s with
  | EmptyString => true
  | String c s' => (p c && str_forallb p s')%bool
  end.

Fixpoint str_existsb (p : ascii -> bool) (s : string) : bool :=
  match s with
  | EmptyString => false
  | String c s' => (p c || str_existsb p s')%bool
  end.

(** [str.islower()]: no upper-case character and at least one lower-case
    one; [str.isupper()] is symmetric. *)
Definition islower (s : string) : bool :=
  (str_forallb (fun c => negb (is_upper c)) s && str_existsb is_lower s)%bool.

Definition isupper (s : string) : bool :=
  (str_forallb (fun c => negb (is_lower c)) s && str_existsb is_upper s)%bool.

(** [str.isdigit()]: non-empty and only digits. *)
Definition isdigit (s : string) : bool :=
  match s with
  | EmptyString => false
  | _ => str_forallb is_digit s
  end.

(** Truth value of a [str]: non-empty. *)
Definition truthy (s : string) : bool :=
  match s with EmptyString => false | _ => true end.

Fixpoint lstrip (s : string) : string :=
  match s with
  | EmptyString => EmptyString
  | String c s' => if is_space c then lstrip s' else s
  end.

Fixpoint rstrip (s : string) : string :=
  match s with
  | EmptyString => EmptyString
  | String c s' =>
      match rstrip s' with
      | EmptyString => if is_space c then EmptyString else String c EmptyString
      | r => String c r
      end
  end.

(** [str.strip()] *)
Definition strip (s : string) : string := rstrip (lstrip s).

Fixpoint str_drop (n : nat) (s : string) : string :=
  match n, s with
  | O, _ => s
  | S n', String _ s' => str_drop n' s'
  | S _, EmptyString => EmptyString
  end.

Definition len (s : string) : Z := Z.of_nat (String.length s).

(** Slice index normalisation and [s[i:j]] for integer bounds. *)
Definition slice_index (n i : Z) : Z :=
  if i <? 0 then Z.max 0 (i + n) else Z.min i n.

Definition py_slice (s : string) (i j : Z) : string :=
  let i' := slice_index (len s) i in
  let j' := slice_index (len s) j in
  substring (Z.to_nat i') (Z.to_nat (j' - i')) s.

(** [xrange(lo, hi)] *)
Definition xrange (lo hi : Z) : list Z :=
  List.map (fun k => lo + Z.of_nat k) (seq 0 (Z.to_nat (hi - lo))).

(** [x or y] for an optional integer [x]: [None] and [0] are false. *)
Definition int_or (x : option Z) (y : Z) : Z :=
  match x with
  | None => y
  | Some 0 => y
  | Some v => v
  end.

(** ** Generators *)

Inductive exn := AttributeError.

(** The outcome of a call: it returns a value or raises. *)
Inductive result (A : Type) : Type :=
| Return (a : A) : result A
| Raises (e : exn) : result A.

Arguments Return {A} a.
Arguments Raises {A} e.

Inductive gen (A : Type) : Type :=
| Stop : gen A
| Raise (e : exn) : gen A
| Yield (a : A) (rest : gen A) : gen A.

Arguments Stop {A}.
Arguments Raise {A} e.
Arguments Yield {A} a rest.

Fixpoint gen_of_list {A} (l : list A) : gen A :=
  match l with
  | [] => Stop
  | a :: l' => Yield a (gen_of_list l')
  end.

(** The items yielded before the generator stops or raises. *)
Fixpoint yielded {A} (g : gen A) : list A :=
  match g with
  | Yield a rest => a :: yielded rest
  | _ => []
  end.

(** Whether the generator ends by raising. *)
Fixpoint raises {A} (g : gen A) : option exn :=
  match g with
  | Stop => None
  | Raise e => Some e
  | Yield _ rest => raises rest
  end.

(** [l] yielded first, then [g] (a loop body followed by the rest). *)
Fixpoint gen_app {A} (l : list A) (g : gen A) : gen A :=
  match l with
  | [] => g
  | a :: l' => Yield a (gen_app l' g)
  end.

(** ** Token *)

Record Token := mkToken {
  positions : bool;
  chars : bool;
  boosts : bool;
  original : option string;
  text : option string;
  pos : option Z;
  startchar : option Z;
  endchar : option Z;
  stopped : bool;
  boost : Q
}.

(** [Token.__init__]: only the flags, [stopped] and [boost] are assigned. *)
Definition Token_init (positions chars boosts : bool) : Token :=
  mkToken positions chars boosts None None None None None false 1%Q.

Definition set_original (v : string) (t : Token) : Token :=
  mkToken (positions t) (chars t) (boosts t) (Some v) (text t) (pos t)
          (startchar t) (endchar t) (stopped t) (boost t).
Definition set_text (v : string) (t : Token) : Token :=
  mkToken (positions t) (chars t) (boosts t) (original t) (Some v) (pos t)
          (startchar t) (endchar t) (stopped t) (boost t).
Definition set_pos (v : Z) (t : Token) : Token :=
  mkToken (positions t) (chars t) (boosts t) (original t) (text t) (Some v)
          (startchar t) (endchar t) (stopped t) (boost t).
Definition set_startchar (v : Z) (t : Token) : Token :=
  mkToken (positions t) (chars t) (boosts t) (original t) (text t) (pos t)
          (Some v) (endchar t) (stopped t) (boost t).
Definition set_endchar (v : Z) (t : Token) : Token :=
  mkToken (positions t) (chars t) (boosts t) (original t) (text t) (pos t)
          (startchar t) (Some v) (stopped t) (boost t).
Definition set_stopped (v : bool) (t : Token) : Token :=
  mkToken (positions t) (chars t) (boosts t) (original t) (text t) (pos t)
          (startchar t) (endchar t) v (boost t).

(** [if flag: t = f(t)] *)
Definition when (flag : bool) (f : Token -> Token) (t : Token) : Token :=
  if flag then f t else t.

Definition texts (g : gen Token) : list (option string) :=
  List.map text (yielded g).

Definition spans (g : gen Token) : list (option Z * option Z) :=
  List.map (fun t => (startchar t, endchar t)) (yielded g).

(** ** The pattern matcher

    The module uses [re] only through [finditer] and only with patterns
    that are an alternation of sequences of quantified character classes:
    [\w+], [[^ \t\r\n]+], [[^,]+] and [[A-Z][a-z]*|[a-z]+|[0-9]+].  The
    matcher below implements that fragment with [re]'s semantics: ordered
    alternation, greedy quantifiers that give back characters when the
    rest of the sequence fails, leftmost match, and a scan that resumes at
    the end of the previous match (one character further after an empty
    match). *)

Inductive quant := One | Star | Plus.

Record atom := Atom { cls : ascii -> bool; qt : quant }.

Definition regex := list (list atom).

Record Match := mkMatch { m_start : nat; m_end : nat; m_group : string }.

Fixpoint run_length (p : ascii -> bool) (s : string) : nat :=
  match s with
  | String c s' => if p c then S (run_length p s') else O
  | EmptyString => O
  end.

(** Try [f (lo + n)], [f (lo + n - 1)], ..., [f lo]; first success wins. *)
Fixpoint try_down (f : nat -> option nat) (lo n : nat) : option nat :=
  match f (lo + n)%nat with
  | Some r => Some r
  | None => match n with O => None | S n' => try_down f lo n' end
  end.

(** Length of the match of a sequence at the head of [s]. *)
Fixpoint match_seq (atoms : list atom) (s : string) : option nat :=
  match atoms with
  | [] => Some O
  | a :: rest =>
      let n := run_length (cls a) s in
      let continue k := option_map (Nat.add k) (match_seq rest (str_drop k s)) in
      match qt a with
      | One => if (1 <=? n)%nat then continue 1%nat else None
      | Star => try_down continue 0 n
      | Plus => if (1 <=? n)%nat then try_down continue 1 (n - 1) else None
      end
  end.

Fixpoint match_at (re : regex) (s : string) : option nat :=
  match re with
  | [] => None
  | alt :: re' =>
      match match_seq alt s with
      | Some n => Some n
      | None => match_at re' s
      end
  end.

(** The scan: [s] is the input from offset [p] on, and [skip] characters
    still belong to the previous match. *)
Fixpoint scan (re : regex) (s : string) (p skip : nat) : list Match :=
  match s with
  | EmptyString =>
      match skip, match_at re s with
      | O, Some n => [mkMatch p (p + n) (substring 0 n s)]
      | _, _ => []
      end
  | String _ s' =>
      match skip with
      | S k => scan re s' (S p) k
      | O =>
          match match_at re s with
          | Some n => mkMatch p (p + n) (substring 0 n s) :: scan re s' (S p) (Nat.pred n)
          | None => scan re s' (S p) O
          end
      end
  end.

Definition finditer (re : regex) (value : string) : list Match :=
  scan re value 0 0.

Definition is_alpha (c : ascii) : bool := (is_upper c || is_lower c)%bool.

(** Bytes above 127 that [re.UNICODE] classifies as alphanumeric (the
    matcher looks an 8-bit character up by its code point). *)
Definition is_latin1_alnum (c : ascii) : bool :=
  let n := nat_of_ascii c in
  (existsb (Nat.eqb n) [170; 178; 179; 181; 185; 186; 188; 189; 190]%nat
   || ((192 <=? n)%nat && negb (Nat.eqb n 215) && negb (Nat.eqb n 247)))%bool.

(** [\w] *)
Definition is_word (c : ascii) : bool :=
  (is_alpha c || is_digit c || Ascii.eqb c "_" || is_latin1_alnum c)%bool.

(** [[^ \t\r\n]] *)
Definition not_blank (c : ascii) : bool :=
  negb (existsb (Ascii.eqb c) [" "; "009"; "013"; "010"]%char).

(** [[^,]] *)
Definition not_comma (c : ascii) : bool := negb (Ascii.eqb c ",").

(** ** Tokenizers *)

Definition IDTokenizer (value : string) (positions chars : bool)
    (start_pos start_char : Z) : gen Token :=
  let t := Token_init positions chars false in
  let t := set_text value (set_original value t) in
  let t := when positions (set_pos (start_pos + 1)) t in
  let t := when chars (fun t => set_endchar (start_char + len value)
                                  (set_startchar start_char t)) t in
  Yield t Stop.

(** The loop shared by [RegexTokenizer.__call__] and
    [CommaSeparatedTokenizer.__call__], which differ only in what they do
    to [match.group(0)]; [i] is the counter of [enumerate]. *)
Fixpoint match_loop (group_text : string -> string) (positions chars : bool)
    (start_pos start_char : Z) (t : Token) (i : nat) (ms : list Match) : gen Token :=
  match ms with
  | [] => Stop
  | m :: ms' =>
      let t := set_text (group_text (m_group m)) (set_original (group_text (m_group m)) t) in
      let t := set_stopped false t in
      let t := when positions (set_pos (start_pos + Z.of_nat i)) t in
      let t := when chars (fun t => set_endchar (start_char + Z.of_nat (m_end m))
                                      (set_startchar (start_char + Z.of_nat (m_start m)) t)) t in
      Yield t (match_loop group_text positions chars start_pos start_char t (S i) ms')
  end.

Module RegexTokenizer.
Record t := mk { expression : regex }.

Definition _default_expression : regex := [[Atom is_word Plus]].

(** [expression or self._default_expression] *)
Definition init (expression : option regex) : t :=
  mk (default _default_expression expression).

Definition call (self : t) (value : string) (positions chars : bool)
    (start_pos start_char : Z) : gen Token :=
  match_loop (fun g => g) positions chars start_pos start_char
    (Token_init positions chars false) 0 (finditer (expression self) value).
End RegexTokenizer.

Module SpaceSeparatedTokenizer.
Definition _default_expression : regex := [[Atom not_blank Plus]].

Definition init (expression : option regex) : RegexTokenizer.t :=
  RegexTokenizer.mk (default _default_expression expression).

Definition call := RegexTokenizer.call.
End SpaceSeparatedTokenizer.

Module CommaSeparatedTokenizer.
Definition _default_expression : regex := [[Atom not_comma Plus]].

Definition init (expression : option regex) : RegexTokenizer.t :=
  RegexTokenizer.mk (default _default_expression expression).

Definition call (self : RegexTokenizer.t) (value : string) (positions chars : bool)
    (start_pos start_char : Z) : gen Token :=
  match_loop strip positions chars start_pos start_char
    (Token_init positions chars false) 0
    (finditer (RegexTokenizer.expression self) value).
End CommaSeparatedTokenizer.

Module NgramTokenizer.
Record t := mk { min : Z; max : Z }.

Definition init (minsize : Z) (maxsize : option Z) : t :=
  mk minsize (int_or maxsize minsize).

(** The call [NgramTokenizer(minsize, maxsize)]: [__init__] only stores
    its arguments, no statement of it raises. *)
Definition construct (minsize : Z) (maxsize : option Z) : result t :=
  Return (init minsize maxsize).

Section Call.
Variable self : t.
Variables positions chars : bool.
Variables start_char inlen : Z.

(** The inner loop, over the sizes, for one [start]; it returns what
    it yields and the token as it leaves it. *)
Fixpoint sizes_loop (pos start : Z) (t : Token) (sizes : list Z)
    : list Token * Token :=
  match sizes with
  | [] => ([], t)
  | size :: sizes' =>
      let end_ := start + size in
      if end_ >? inlen then sizes_loop pos start t sizes'
      else
        let t := set_stopped false t in
        let t := when positions (set_pos pos) t in
        let t := when chars (fun t => set_endchar (start_char + end_)
                                        (set_startchar (start_char + start) t)) t in
        let (ys, t') := sizes_loop pos start t sizes' in
        (t :: ys, t')
  end.

Fixpoint starts_loop (pos : Z) (t : Token) (starts : list Z) : gen Token :=
  match starts with
  | [] => Stop
  | start :: starts' =>
      let (ys, t') := sizes_loop pos start t (xrange (min self) (max self + 1)) in
      gen_app ys (starts_loop (pos + 1) t' starts')
  end.
End Call.

Definition call (self : t) (value : string) (positions chars : bool)
    (start_pos start_char : Z) : gen Token :=
  let inlen := len value in
  starts_loop self positions chars start_char inlen start_pos
    (Token_init positions chars false) (xrange 0 (inlen - min self)).
End NgramTokenizer.

(** ** Filters *)

Fixpoint PassFilter (tokens : gen Token) : gen Token :=
  match tokens with
  | Stop => Stop
  | Raise e => Raise e
  | Yield t rest => Yield t (PassFilter rest)
  end.

Module NgramFilter.
Record t := mk { min : Z; max : Z }.

Definition init (minsize : Z) (maxsize : option Z) : t :=
  mk minsize (int_or maxsize minsize).

(** The call [NgramFilter(minsize, maxsize)]. *)
Definition construct (minsize : Z) (maxsize : option Z) : result t :=
  Return (init minsize maxsize).

Section Call.
Variable self : t.
(** The locals [text], [chars] and [startchar] of one iteration of
    the loop over the tokens. *)
Variable text : string.
Variable chars : bool.
Variable startchar : Z.

Fixpoint sizes_loop (start : Z) (t : Token) (sizes : list Z)
    : list Token * Token :=
  match sizes with
  | [] => ([], t)
  | size :: sizes' =>
      let end_ := start + size in
      if end_ >? len text then sizes_loop start t sizes'
      else
        let t := set_text (py_slice text start end_) t in
        let t := when chars (fun t => set_endchar (startchar + end_)
                                        (set_startchar (startchar + start) t)) t in
        let (ys, t') := sizes_loop start t sizes' in
        (t :: ys, t')
  end.

Fixpoint starts_loop (t : Token) (starts : list Z) : list Token :=
  match starts with
  | [] => []
  | start :: starts' =>
      let (ys, t') := sizes_loop start t (xrange (min self) (max self + 1)) in
      (ys ++ starts_loop t' starts')%list
  end.
End Call.

Fixpoint call (self : t) (tokens : gen Token) : gen Token :=
  match tokens with
  | Stop => Stop
  | Raise e => Raise e
  | Yield t rest =>
      match text t with
      | None => Raise AttributeError
      | Some txt =>
          (* [startchar] is bound, and later read, only under [chars] *)
          match (if chars t then startchar t else Some 0) with
          | None => Raise AttributeError
          | Some start0 =>
              gen_app (starts_loop self txt (chars t) start0 t
                         (xrange 0 (len txt - min self)))
                      (call self rest)
          end
      end
  end.
End NgramFilter.

(** What [StemFilter] yields: the token, or (on a cache miss) a [str]. *)
Inductive item :=
| ITok (t : Token)
| IStr (s : string).

Module StemFilter.
Record t := mk { cache : gmap string string; ignores : gset string }.

Definition init (ignore : option (gset string)) : t :=
  mk ∅ (default ∅ ignore).

Definition clear (self : t) : t := mk ∅ (ignores self).

Section Call.
(** [whoosh.lang.porter.stem], imported by the module. *)
Variable stem : string -> string.
Variable ignores : gset string.

(** The loop of [__call__]; the dictionary is threaded through it and
    returned as it is when the generator ends. *)
Fixpoint loop (cache : gmap string string) (tokens : gen Token)
    : gen item * gmap string string :=
  match tokens with
  | Stop => (Stop, cache)
  | Raise e => (Raise e, cache)
  | Yield t rest =>
      if stopped t then
        let (g, c) := loop cache rest in (Yield (ITok t) g, c)
      else
        match text t with
        | None => (Raise AttributeError, cache)
        | Some txt =>
            if decide (txt ∈ ignores) then
              let (g, c) := loop cache rest in (Yield (ITok t) g, c)
            else
              match cache !! txt with
              | Some s =>
                  let (g, c) := loop cache rest in
                  (Yield (ITok (set_text s t)) g, c)
              | None =>
                  (* t.text = s = stem(text); cache[text] = s; yield s *)
                  let s := stem txt in
                  let (g, c) := loop (<[txt := s]> cache) rest in
                  (Yield (IStr s) g, c)
              end
        end
  end.
End Call.

(** [__call__]: the output and the filter with its cache updated. *)
Definition call (stem : string -> string) (self : t) (tokens : gen Token)
    : gen item * t :=
  let (g, c) := loop stem (ignores self) (cache self) tokens in
  (g, mk c (ignores self)).
End StemFilter.

Definition _camel_exp : regex :=
  [[Atom is_upper One; Atom is_lower Star]; [Atom is_lower Plus]; [Atom is_digit Plus]].

(** The loop over the matches in [CamelFilter] and [UnderscoreFilter], for
    a consumer that hands the token back as it got it: the states in which
    the token is yielded. *)
Fixpoint camel_loop (txt : string) (chars : bool) (oldstart : Z)
    (t : Token) (ms : list Match) : list Token :=
  match ms with
  | [] => []
  | m :: ms' =>
      let sub := m_group m in
      if negb (String.eqb sub txt) then
        let t := set_text sub t in
        let t := when chars (fun t => set_endchar (oldstart + Z.of_nat (m_end m))
                                        (set_startchar (oldstart + Z.of_nat (m_start m)) t)) t in
        t :: camel_loop txt chars oldstart t ms'
      else camel_loop txt chars oldstart t ms'
  end.

Definition STOP_WORDS : gset string :=
  list_to_set
    ["the"; "to"; "of"; "a"; "and"; "is"; "in"; "this";
     "you"; "for"; "be"; "on"; "or"; "will"; "if"; "can"; "are";
     "that"; "by"; "with"; "it"; "as"; "from"; "an"; "when";
     "not"; "may"; "tbd"; "yet"].

Module StopFilter.
Record t := mk { stops : gset string; min : Z }.

(** [stoplist = None] gives the empty set. *)
Definition init (stoplist : option (gset string)) (minsize : Z) : t :=
  mk (default ∅ stoplist) minsize.

(** [StopFilter()]: the default arguments. *)
Definition init_default : t := init (Some STOP_WORDS) 2.

(** The test of the loop body. *)
Definition keeps (self : t) (txt : string) : bool :=
  (len txt >=? min self) && bool_decide (txt ∉ stops self).

Fixpoint call (self : t) (tokens : gen Token) : gen Token :=
  match tokens with
  | Stop => Stop
  | Raise e => Raise e
  | Yield t rest =>
      match text t with
      | None => Raise AttributeError
      | Some txt =>
          if keeps self txt then Yield t (call self rest) else call self rest
      end
  end.
End StopFilter.

Fixpoint LowerCaseFilter (tokens : gen Token) : gen Token :=
  match tokens with
  | Stop => Stop
  | Raise e => Raise e
  | Yield t rest =>
      match text t with
      | None => Raise AttributeError
      | Some txt => Yield (set_text (lower txt) t) (LowerCaseFilter rest)
      end
  end.

(** ** Analyzers *)

Module StandardAnalyzer.
Record t := mk { tokenizer : RegexTokenizer.t; stopper : gen Token -> gen Token }.

Definition init (stoplist : option (gset string)) (minsize : Z) : t :=
  mk (RegexTokenizer.init None)
     (match stoplist with
      | None => PassFilter
      | Some _ => StopFilter.call (StopFilter.init stoplist minsize)
      end).

(** [StandardAnalyzer()]: the default arguments. *)
Definition init_default : t := init (Some STOP_WORDS) 2.

Definition call (self : t) (value : string) (positions chars : bool)
    (start_pos start_char : Z) : gen Token :=
  stopper self (LowerCaseFilter
    (RegexTokenizer.call (tokenizer self) value positions chars start_pos start_char)).
End StandardAnalyzer.

(** ** The rest of the module: the underscore filter and the other analyzers *)

Definition _underscore_exp : regex :=
  [[Atom is_upper One; Atom is_lower Star]; [Atom is_lower Plus]; [Atom is_digit Plus]].

(** [UnderscoreFilter] run on a stream of token states, for a consumer
    that hands each token back as it got it (as the stop filter does): the
    text read after [yield t] is then the text of the yielded state.  The
    form that reads the state the token is handed back in is
    [Shared.UnderscoreFilter] below. *)
Fixpoint UnderscoreFilter (tokens : gen Token) : gen Token :=
  match tokens with
  | Stop => Stop
  | Raise e => Raise e
  | Yield t rest =>
      Yield t
        match text t with
        | None => Raise AttributeError
        | Some txt =>
            if truthy txt then
              match (if chars t then startchar t else Some 0) with
              | None => Raise AttributeError
              | Some oldstart =>
                  gen_app (camel_loop txt (chars t) oldstart t
                             (finditer _underscore_exp txt))
                          (UnderscoreFilter rest)
              end
            else UnderscoreFilter rest
        end
  end.

Module IDAnalyzer.
(** [if self.strip: value = value.strip()] *)
Definition stripped (flag : bool) (value : string) : string :=
  if flag then strip value else value.

Record t := mk { strip : bool }.

Definition init (strip : bool) : t := mk strip.

Definition call (self : t) (value : string) (positions chars : bool)
    (start_pos start_char : Z) : gen Token :=
  IDTokenizer (stripped (strip self) value) positions chars start_pos start_char.
End IDAnalyzer.

Module SpaceSeparatedAnalyzer.
Record t := mk { tokenizer : RegexTokenizer.t }.

Definition init : t := mk (SpaceSeparatedTokenizer.init None).

Definition call (self : t) (value : string) (positions chars : bool)
    (start_pos start_char : Z) : gen Token :=
  SpaceSeparatedTokenizer.call (tokenizer self) value positions chars start_pos start_char.
End SpaceSeparatedAnalyzer.

Module CommaSeparatedAnalyzer.
Record t := mk { tokenizer : RegexTokenizer.t }.

Definition init : t := mk (CommaSeparatedTokenizer.init None).

Definition call (self : t) (value : string) (positions chars : bool)
    (start_pos start_char : Z) : gen Token :=
  CommaSeparatedTokenizer.call (tokenizer self) value positions chars start_pos start_char.
End CommaSeparatedAnalyzer.

Module SimpleAnalyzer.
Record t := mk { tokenizer : RegexTokenizer.t }.

Definition init : t := mk (RegexTokenizer.init None).

Definition call (self : t) (value : string) (positions chars : bool)
    (start_pos start_char : Z) : gen Token :=
  LowerCaseFilter
    (RegexTokenizer.call (tokenizer self) value positions chars start_pos start_char).
End SimpleAnalyzer.

Module NgramAnalyzer.
Record t := mk { tokenizer : NgramTokenizer.t }.

Definition init (minsize : Z) (maxsize : option Z) : t :=
  mk (NgramTokenizer.init minsize maxsize).

(** [__call__(self, value, positions, chars)]: the tokenizer runs with
    its default [start_pos] and [start_char]. *)
Definition call (self : t) (value : string) (positions chars : bool) : gen Token :=
  LowerCaseFilter (NgramTokenizer.call (tokenizer self) value positions chars 0 0).
End NgramAnalyzer.

(** ** The shared token: generators that see each other's writes

    [FancyAnalyzer] puts [LowerCaseFilter] and [UnderscoreFilter] after
    [CamelFilter], and [CamelFilter] reads [t.text] again after its
    [yield t], when the filters downstream have already written to the one
    token object.  For that pipeline a generator is therefore modelled as
    a coroutine over the state of the shared token: its outcome ([out]) is
    that it is exhausted, that it raises, or that it yields, leaving the
    token in a state [st] and a continuation that is resumed with the
    state in which the consumer hands the token back.  The bodies are
    those of the functions above; where those went on with their own copy
    of the token, these go on with the state they are resumed with. *)

Module Shared.
Inductive co : Type :=
| Co (resume : Token -> out)
with out : Type :=
| Done : out
| Fail (e : exn) : out
| Out (st : Token) (k : co) : out.

Definition resume (k : co) : Token -> out :=
  match k with Co r => r end.

(** A consumer that reads the token at each [yield] and writes nothing:
    the states it sees, and how the generator ends. *)
Fixpoint observe (g : out) : gen Token :=
  match g with
  | Done => Stop
  | Fail e => Raise e
  | Out st k => Yield st (match k with Co r => observe (r st) end)
  end.

(** The loop of [RegexTokenizer.__call__]. *)
Fixpoint regex_loop (positions chars : bool) (start_pos start_char : Z)
    (t : Token) (i : nat) (ms : list Match) : out :=
  match ms with
  | [] => Done
  | m :: ms' =>
      let t := set_text (m_group m) (set_original (m_group m) t) in
      let t := set_stopped false t in
      let t := when positions (set_pos (start_pos + Z.of_nat i)) t in
      let t := when chars (fun t => set_endchar (start_char + Z.of_nat (m_end m))
                                      (set_startchar (start_char + Z.of_nat (m_start m)) t)) t in
      Out t (Co (fun st => regex_loop positions chars start_pos start_char st (S i) ms'))
  end.

Definition RegexTokenizer_call (self : RegexTokenizer.t) (value : string)
    (positions chars : bool) (start_pos start_char : Z) : out :=
  regex_loop positions chars start_pos start_char
    (Token_init positions chars false) 0 (finditer (RegexTokenizer.expression self) value).

Fixpoint LowerCaseFilter (tokens : out) : out :=
  match tokens with
  | Done => Done
  | Fail e => Fail e
  | Out t k =>
      match text t with
      | None => Fail AttributeError
      | Some txt =>
          Out (set_text (lower txt) t)
              (match k with Co r => Co (fun st => LowerCaseFilter (r st)) end)
      end
  end.

Fixpoint StopFilter_call (self : StopFilter.t) (tokens : out) : out :=
  match tokens with
  | Done => Done
  | Fail e => Fail e
  | Out t k =>
      match text t with
      | None => Fail AttributeError
      | Some txt =>
          match k with Co r =>
            if StopFilter.keeps self txt
            then Out t (Co (fun st => StopFilter_call self (r st)))
            else StopFilter_call self (r t)
          end
      end
  end.

(** The loop over the matches in [CamelFilter] and [UnderscoreFilter]:
    [txt], [chars] and [oldstart] are the locals read before the loop,
    [next] is what the generator does once the matches are exhausted. *)
Fixpoint split_subs (txt : string) (chars : bool) (oldstart : Z) (next : Token -> out)
    (ms : list Match) (t : Token) : out :=
  match ms with
  | [] => next t
  | m :: ms' =>
      let sub := m_group m in
      if negb (String.eqb sub txt) then
        let t := set_text sub t in
        let t := when chars (fun t => set_endchar (oldstart + Z.of_nat (m_end m))
                                        (set_startchar (oldstart + Z.of_nat (m_start m)) t)) t in
        Out t (Co (split_subs txt chars oldstart next ms'))
      else split_subs txt chars oldstart next ms' t
  end.

(** What [CamelFilter] and [UnderscoreFilter] do when they are resumed
    after [yield t], the token being in the state [t] by then; [guard] is
    the condition under which the text is split and [next] pulls the next
    token. *)
Definition after_yield (guard : string -> bool) (exp : regex) (next : Token -> out)
    (t : Token) : out :=
  match text t with
  | None => Fail AttributeError
  | Some txt =>
      if guard txt then
        match (if chars t then startchar t else Some 0) with
        | None => Fail AttributeError
        | Some oldstart =>
            split_subs txt (chars t) oldstart next (finditer exp txt) t
        end
      else next t
  end.

(** The body that [CamelFilter] and [UnderscoreFilter] share. *)
Fixpoint split_filter (guard : string -> bool) (exp : regex) (tokens : out) : out :=
  match tokens with
  | Done => Done
  | Fail e => Fail e
  | Out t k =>
      match k with Co r =>
        Out t (Co (after_yield guard exp (fun st => split_filter guard exp (r st))))
      end
  end.

Definition CamelFilter : out -> out :=
  split_filter (fun txt => truthy txt && negb (islower txt) && negb (isupper txt)
                           && negb (isdigit txt)) _camel_exp.

Definition UnderscoreFilter : out -> out := split_filter truthy _underscore_exp.
End Shared.

Module FancyAnalyzer.
Record t := mk { tokenizer : RegexTokenizer.t; stopper : StopFilter.t }.

Definition init (stoplist : option (gset string)) (minsize : Z) : t :=
  mk (RegexTokenizer.init None) (StopFilter.init stoplist minsize).

(** [FancyAnalyzer()]: the default arguments. *)
Definition init_default : t := init (Some STOP_WORDS) 2.

Definition call (self : t) (value : string) (positions chars : bool)
    (start_pos start_char : Z) : Shared.out :=
  Shared.StopFilter_call (stopper self)
    (Shared.UnderscoreFilter
       (Shared.LowerCaseFilter
          (Shared.CamelFilter
             (Shared.RegexTokenizer_call (tokenizer self) value positions chars
                start_pos start_char)))).
End FancyAnalyzer.

(** * Vocabulary of the statements *)

(** What one iteration of the inner loop of the n-gram tokenizer assigns. *)
Definition gram_token (positions chars : bool) (start_char pos start end_ : Z)
    (t : Token) : Token :=
  when chars (fun t => set_endchar (start_char + end_)
                         (set_startchar (start_char + start) t))
    (when positions (set_pos pos) (set_stopped false t)).

(** A token the stop filter drops: its text is shorter than the minimum
    or belongs to the word set. *)
Definition dropped (self : StopFilter.t) (t : Token) : bool :=
  match text t with
  | Some txt => (len txt <? StopFilter.min self) || bool_decide (txt ∈ StopFilter.stops self)
  | None => false
  end.

(** A token with the given text and nothing else assigned. *)
Definition word (s : string) : Token :=
  set_text s (set_original s (Token_init false false false)).

(** The guard of the sub-split: non-empty, not lower-case, not upper-case,
    not numeric. *)
Definition camel_splits (txt : string) : bool :=
  truthy txt && negb (islower txt) && negb (isupper txt) && negb (isdigit txt).

(** The token emitted for a sub-match: the incoming token with the text of
    the match and, under [chars], its offsets moved to the match. *)
Definition sub_token (t : Token) (m : Match) : Token :=
  match chars t, startchar t with
  | true, Some oldstart =>
      set_endchar (oldstart + Z.of_nat (m_end m))
        (set_startchar (oldstart + Z.of_nat (m_start m)) (set_text (m_group m) t))
  | _, _ => set_text (m_group m) t
  end.

(** [sub != text] *)
Definition differs (txt : string) (m : Match) : bool :=
  negb (String.eqb (m_group m) txt).

(** What follows the whole-word token in the output. *)
Definition camel_subs (t : Token) (txt : string) : list Token :=
  if camel_splits txt
  then List.map (sub_token t) (List.filter (differs txt) (finditer _camel_exp txt))
  else [].

(** One step of the loop overwrites what the previous steps assigned. *)
Definition camel_step (chars : bool) (oldstart : Z) (m : Match) (t : Token) : Token :=
  when chars (fun t => set_endchar (oldstart + Z.of_nat (m_end m))
                         (set_startchar (oldstart + Z.of_nat (m_start m)) t))
    (set_text (m_group m) t).

(** A token as the pattern tokenizer yields it for the whole input
    ["getProcessedToken"], positions and char offsets active. *)
Definition camel_word : Token :=
  mkToken true true false (Some "getProcessedToken") (Some "getProcessedToken")
          (Some 0) (Some 0) (Some 17) false 1%Q.

(** A token whose [text] is assigned, and whose [startchar] is when char
    offsets are active. *)
Definition readable (t : Token) : Prop :=
  (exists txt, text t = Some txt) /\ (chars t = true -> exists s, startchar t = Some s).

(** The continuation of a sequence once its first atom took [k]
    characters. *)
Definition match_rest (rest : list atom) (s : string) (k : nat) : option nat :=
  option_map (Nat.add k) (match_seq rest (str_drop k s)).

(** Successive matches: each starts at or after [lo], the end of the one
    before. *)
Fixpoint match_chain (lo : nat) (ms : list Match) : Prop :=
  match ms with
  | [] => True
  | m :: ms' => (lo <= m_start m)%nat /\ match_chain (m_end m) ms'
  end.

(** A match lies in [value] and its group is the matched substring. *)
Definition match_in (value : string) (m : Match) : Prop :=
  (m_start m <= m_end m <= String.length value)%nat
  /\ m_group m = substring (m_start m) (m_end m - m_start m) value
  /\ String.length (m_group m) = (m_end m - m_start m)%nat.

(** Every token carries a span [[s, e)] with [lo <= s <= e <= hi]. *)
Definition spans_within (lo hi : Z) (ts : list Token) : Prop :=
  Forall (fun t => exists s e, startchar t = Some s /\ endchar t = Some e
                               /\ lo <= s /\ s <= e /\ e <= hi) ts.

(** A later token does not start before an earlier one. *)
Definition starts_nondecreasing (ts : list Token) : Prop :=
  forall i j ti tj, (i < j)%nat -> ts !! i = Some ti -> ts !! j = Some tj ->
    exists si sj, startchar ti = Some si /\ startchar tj = Some sj /\ si <= sj.

(** A later token starts at or after the end of an earlier one. *)
Definition spans_disjoint (ts : list Token) : Prop :=
  forall i j ti tj, (i < j)%nat -> ts !! i = Some ti -> ts !! j = Some tj ->
    exists ei sj, endchar ti = Some ei /\ startchar tj = Some sj /\ ei <= sj.

(** The invariant of the emitting loops: each span lies in [[lo, hi]] and
    the next token starts at or after [next s e]. *)
Fixpoint span_chain (next : Z -> Z -> Z) (lo hi : Z) (ts : list Token) : Prop :=
  match ts with
  | [] => True
  | t :: ts' =>
      exists s e, startchar t = Some s /\ endchar t = Some e
                  /\ lo <= s /\ s <= e /\ e <= hi
                  /\ span_chain next (next s e) hi ts'
  end.

(** [l] is non-decreasing and starts at or after [lo]. *)
Fixpoint ascending (lo : Z) (l : list Z) : Prop :=
  match l with
  | [] => True
  | x :: l' => lo <= x /\ ascending x l'
  end.

(** The first, and the last, character of [s] is whitespace. *)
Definition first_is_space (s : string) : bool :=
  match s with
  | String c _ => is_space c
  | EmptyString => false
  end.

Fixpoint last_is_space (s : string) : bool :=
  match s with
  | EmptyString => false
  | String c EmptyString => is_space c
  | String _ s' => last_is_space s'
  end.

(** The match carries leading or trailing whitespace. *)
Definition outer_space (s : string) : bool := first_is_space s || last_is_space s.

(** The characters a match of [re] can contain: those of one of its
    classes. *)
Definition re_class (re : regex) (c : ascii) : bool :=
  existsb (fun alt => existsb (fun a => cls a c) alt) re.

(** No alternative of [re] can match the empty string: each begins with an
    atom that takes at least one character. *)
Definition never_empty (re : regex) : bool :=
  forallb (fun alt => match alt with
                      | a :: _ => match qt a with Star => false | _ => true end
                      | [] => false
                      end) re.

(** The characters of [s] that satisfy [p], in order. *)
Fixpoint str_filter (p : ascii -> bool) (s : string) : string :=
  match s with
  | EmptyString => EmptyString
  | String c s' => if p c then String c (str_filter p s') else str_filter p s'
  end.

(** The concatenation of a list of strings. *)
Fixpoint join (l : list string) : string :=
  match l with
  | [] => EmptyString
  | s :: l' => s ++ join l'
  end.

(** [u] has the [original], the [pos] and the [stopped] flag of [t]. *)
Definition same_position (t u : Token) : Prop :=
  original u = original t /\ pos u = pos t /\ stopped u = stopped t.

(** [g] is a gram of [txt]: a substring of it whose length lies between
    [lo] and [hi]. *)
Definition gram_of (txt : string) (lo hi : Z) (g : string) : Prop :=
  exists s n : nat, g = substring s n txt /\ (s + n <= String.length txt)%nat
                    /\ String.length g = n /\ lo <= Z.of_nat n <= hi.

(** The cache maps a word to nothing but its stem. *)
Definition cache_sound (stem : string -> string) (cache : gmap string string) : Prop :=
  forall k v, cache !! k = Some v -> v = stem k.

(** The string an item of the stem filter's output carries. *)
Definition item_string (i : item) : option string :=
  match i with
  | ITok t => text t
  | IStr s => Some s
  end.

(** What the stem filter makes of the text of a token, whatever the cache:
    the text of a stopped token or an ignored word, the stem otherwise. *)
Definition stemmed (stem : string -> string) (ignores : gset string) (t : Token)
    : option string :=
  if stopped t then text t
  else match text t with
       | Some txt => if decide (txt ∈ ignores) then Some txt else Some (stem txt)
       | None => None
       end.

(** The stem filter can process [t]: it is stopped or carries a text. *)
Definition stemmable (t : Token) : Prop :=
  stopped t = true \/ exists txt, text t = Some txt.

(** An ASCII letter or digit. *)
Definition is_alnum (c : ascii) : bool := is_alpha c || is_digit c.

(** [u] is a sub-word token of the token [t] with text [txt]: it has the
    position of [t], its text is a non-empty run of ASCII letters and
    digits other than [txt] itself and, when char offsets are active, its
    offsets delimit that text within [txt], counted from the start of
    [t]. *)
Definition sub_word (t : Token) (txt : string) (u : Token) : Prop :=
  same_position t u
  /\ exists sub, text u = Some sub /\ sub <> "" /\ sub <> txt
       /\ str_forallb is_alnum sub = true
       /\ (chars t = true ->
           exists s (a b : nat),
             startchar t = Some s
             /\ startchar u = Some (s + Z.of_nat a) /\ endchar u = Some (s + Z.of_nat b)
             /\ py_slice txt (Z.of_nat a) (Z.of_nat b) = sub).

(** What one iteration of the loop of the pattern tokenizer makes of the
    token [t] for the match [m] number [i]. *)
Definition word_token (positions chars : bool) (start_pos start_char : Z)
    (m : Match) (i : nat) (t : Token) : Token :=
  when chars (fun t => set_endchar (start_char + Z.of_nat (m_end m))
                         (set_startchar (start_char + Z.of_nat (m_start m)) t))
    (when positions (set_pos (start_pos + Z.of_nat i))
       (set_stopped false (set_text (m_group m) (set_original (m_group m) t)))).

(** [st] and [t] are tokens of a run with char offsets [flag] that differ
    at most in slots the pattern tokenizer assigns at every iteration. *)
Definition agree (flag : bool) (st t : Token) : Prop :=
  positions st = positions t /\ chars st = flag /\ chars t = flag
  /\ boosts st = boosts t /\ boost st = boost t /\ pos st = pos t
  /\ (flag = false -> startchar st = startchar t /\ endchar st = endchar t).

(** The state in which the loop over the matches leaves the token. *)
Fixpoint camel_final (txt : string) (chars : bool) (oldstart : Z)
    (t : Token) (ms : list Match) : Token :=
  match ms with
  | [] => t
  | m :: ms' =>
      if negb (String.eqb (m_group m) txt)
      then camel_final txt chars oldstart (camel_step chars oldstart m t) ms'
      else camel_final txt chars oldstart t ms'
  end.

(** The stop filter lets the token through. *)
Definition kept (self : StopFilter.t) (u : Token) : bool :=
  match text u with
  | Some x => StopFilter.keeps self x
  | None => false
  end.

(** The guard of [CamelFilter] does not hold of [x], or no match of the
    camel pattern in [x] differs from [x]: resumed on a token with that
    text, the filter adds nothing. *)
Definition camel_quiet (x : string) : Prop :=
  camel_splits x = false \/ List.filter (differs x) (finditer _camel_exp x) = [].

(** Every two consecutive tokens overlap: the later one starts before the
    earlier one ends. *)
Definition consecutive_overlap (ts : list Token) : Prop :=
  forall i ti tj, ts !! i = Some ti -> ts !! S i = Some tj ->
    exists ei sj, endchar ti = Some ei /\ startchar tj = Some sj /\ sj < ei.

(** The invariant of the loops of the n-gram tokenizer: each span is at
    least [lo] wide and starts at most one character after [prev], the
    start of the span before. *)
Fixpoint close_chain (lo prev : Z) (ts : list Token) : Prop :=
  match ts with
  | [] => True
  | t :: ts' =>
      exists s e, startchar t = Some s /\ endchar t = Some e
                  /\ s <= prev + 1 /\ s + lo <= e
                  /\ close_chain lo s ts'
  end.

(** The grams of [txt] of the sizes [lo] to [hi], in the order of the
    loops of the n-gram filter: start offset by start offset, from [0] up
    to (not including) [len txt - lo], and for each the sizes in
    increasing order that do not run past the end of [txt]. *)
Definition gram_texts (lo hi : Z) (txt : string) : list string :=
  flat_map (fun start =>
              List.map (fun size => py_slice txt start (start + size))
                (List.filter (fun size => negb (start + size >? len txt))
                   (xrange lo (hi + 1))))
    (xrange 0 (len txt - lo)).

(** What follows the whole-word token in the output of the underscore
    filter: a sub-token for every match that differs from the text. *)
Definition under_subs (t : Token) (txt : string) : list Token :=
  if truthy txt
  then List.map (sub_token t) (List.filter (differs txt) (finditer _underscore_exp txt))
  else [].

(** The state in which a split filter leaves the token once it has yielded
    the sub-tokens [subs] of the token [t]: that of the last one. *)
Definition left_as (t : Token) (subs : list Token) : Token :=
  default t (last subs).

(** A token as the pattern tokenizer yields it for the whole input
    ["get_processed_token"], positions and char offsets active. *)
Definition underscore_word : Token :=
  mkToken true true false (Some "get_processed_token") (Some "get_processed_token")
          (Some 0) (Some 0) (Some 19) false 1%Q.

(** * Properties *)

(** ** Generators and tokens *)

Lemma yielded_gen_of_list {A} (l : list A) : yielded (gen_of_list l) = l.
Proof. induction l as [|a l IH]; simpl; [reflexivity | now rewrite IH]. Qed.

Lemma raises_gen_of_list {A} (l : list A) : raises (gen_of_list l) = None.
Proof. induction l as [|a l IH]; simpl; [reflexivity | exact IH]. Qed.

Lemma gen_app_of_list {A} (l k : list A) :
  gen_app l (gen_of_list k) = gen_of_list (l ++ k)%list.
Proof. induction l as [|a l IH]; simpl; [reflexivity | now rewrite IH]. Qed.

Lemma yielded_gen_app {A} (l : list A) (g : gen A) :
  yielded (gen_app l g) = (l ++ yielded g)%list.
Proof. induction l as [|a l IH]; simpl; [reflexivity | now rewrite IH]. Qed.

Lemma raises_gen_app {A} (l : list A) (g : gen A) :
  raises (gen_app l g) = raises g.
Proof. induction l as [|a l IH]; simpl; [reflexivity | exact IH]. Qed.

(** ** [str.lower] *)

Lemma lower_char_idem (c : ascii) : lower_char (lower_char c) = lower_char c.
Proof. destruct c as [[] [] [] [] [] [] [] []]; reflexivity. Qed.

Lemma lower_idem (s : string) : lower (lower s) = lower s.
Proof.
  induction s as [|c s IH]; simpl; [reflexivity|].
  now rewrite lower_char_idem, IH.
Qed.

(** C9. The lowercase filter is idempotent: filtering a token stream twice
    gives the same stream (the same token states, hence the same [text]
    values, and the same outcome) as filtering it once. *)
Theorem C9_LowerCaseFilter_idempotent (tokens : gen Token) :
  LowerCaseFilter (LowerCaseFilter tokens) = LowerCaseFilter tokens
  /\ texts (LowerCaseFilter (LowerCaseFilter tokens)) = texts (LowerCaseFilter tokens).
Proof.
  assert (H : LowerCaseFilter (LowerCaseFilter tokens) = LowerCaseFilter tokens).
  { induction tokens as [| e | t rest IH]; simpl; try reflexivity.
    destruct (text t) as [txt|] eqn:E; simpl; [|reflexivity].
    rewrite IH. unfold set_text at 1. simpl. now rewrite lower_idem. }
  split; [exact H | now rewrite H].
Qed.

(** ** The pattern matcher: matches lie in the input, left to right *)

Lemma str_drop_length k : forall s,
  String.length (str_drop k s) = (String.length s - k)%nat.
Proof.
  induction k as [|k IH]; intros s; simpl; [lia|].
  destruct s as [|c s]; simpl; [reflexivity | apply IH].
Qed.

Lemma str_drop_S p : forall v c s,
  str_drop p v = String c s -> str_drop (S p) v = s.
Proof.
  induction p as [|p IH]; intros v c s E; simpl in *.
  - now subst v.
  - destruct v as [|c' v]; [discriminate | now apply (IH v c)].
Qed.

Lemma run_length_le p s : (run_length p s <= String.length s)%nat.
Proof.
  induction s as [|c s IH]; simpl; [lia|]. destruct (p c); simpl; lia.
Qed.

Lemma try_down_Some f lo n r :
  try_down f lo n = Some r ->
  exists k, (lo <= k <= lo + n)%nat /\ f k = Some r.
Proof.
  induction n as [|n IH]; simpl.
  - destruct (f (lo + 0)%nat) eqn:E; [|discriminate].
    intros [= <-]. exists (lo + 0)%nat. split; [lia | exact E].
  - destruct (f (lo + S n)%nat) eqn:E.
    + intros [= <-]. exists (lo + S n)%nat. split; [lia | exact E].
    + intros H. destruct (IH H) as (k & Hk & Hf). exists k. split; [lia | exact Hf].
Qed.

Lemma match_seq_cons a rest s :
  match_seq (a :: rest) s
  = match qt a with
    | One => if (1 <=? run_length (cls a) s)%nat then match_rest rest s 1 else None
    | Star => try_down (match_rest rest s) 0 (run_length (cls a) s)
    | Plus => if (1 <=? run_length (cls a) s)%nat
              then try_down (match_rest rest s) 1 (run_length (cls a) s - 1)
              else None
    end.
Proof. reflexivity. Qed.

Lemma match_seq_le atoms : forall s n,
  match_seq atoms s = Some n -> (n <= String.length s)%nat.
Proof.
  induction atoms as [|a rest IH]; intros s n; [simpl | rewrite match_seq_cons].
  - intros [= <-]. lia.
  - pose proof (run_length_le (cls a) s) as Hrun.
    assert (Hk : forall k, (k <= run_length (cls a) s)%nat ->
                 match_rest rest s k = Some n ->
                 (n <= String.length s)%nat).
    { unfold match_rest. intros k Hle H. destruct (match_seq rest (str_drop k s)) as [m|] eqn:E;
        [|discriminate]. simpl in H. revert H. intros [= <-].
      apply IH in E. rewrite str_drop_length in E. lia. }
    destruct (qt a).
    + destruct (Nat.leb_spec 1 (run_length (cls a) s)) as [Hge|Hlt]; [|discriminate].
      now apply Hk.
    + intros H. apply try_down_Some in H. destruct H as (k & Hle & H).
      apply (Hk k); [lia | exact H].
    + destruct (Nat.leb_spec 1 (run_length (cls a) s)) as [Hge|Hlt]; [|discriminate].
      intros H. apply try_down_Some in H. destruct H as (k & Hle & H).
      apply (Hk k); [lia | exact H].
Qed.

Lemma match_at_le re : forall s n,
  match_at re s = Some n -> (n <= String.length s)%nat.
Proof.
  induction re as [|alt re IH]; intros s n; simpl; [discriminate|].
  destruct (match_seq alt s) as [m|] eqn:E.
  - intros [= <-]. now apply (match_seq_le alt).
  - apply IH.
Qed.

Lemma substring_0_length n : forall s,
  (n <= String.length s)%nat -> String.length (substring 0 n s) = n.
Proof.
  induction n as [|n IH]; intros s H.
  - destruct s; reflexivity.
  - destruct s as [|c s]; simpl in *; [lia|]. rewrite IH; lia.
Qed.

Lemma substring_str_drop p : forall v n,
  substring 0 n (str_drop p v) = substring p n v.
Proof.
  induction p as [|p IH]; intros v n; simpl; [reflexivity|].
  destruct v as [|c v]; [destruct n; reflexivity | apply IH].
Qed.

Lemma match_chain_weaken lo lo' ms :
  (lo' <= lo)%nat -> match_chain lo ms -> match_chain lo' ms.
Proof. destruct ms as [|m ms]; simpl; [tauto|]. intros H [H1 H2]. split; [lia | exact H2]. Qed.

Lemma scan_spec re value : forall s p skip,
  s = str_drop p value ->
  (p + String.length s = String.length value)%nat ->
  (skip <= String.length s)%nat ->
  match_chain (p + skip) (scan re s p skip)
  /\ Forall (match_in value) (scan re s p skip).
Proof.
  assert (Hm : forall s p n, s = str_drop p value ->
               (p + String.length s = String.length value)%nat ->
               (n <= String.length s)%nat ->
               match_in value (mkMatch p (p + n) (substring 0 n s))).
  { intros s p n Es Hp Hn. unfold match_in. simpl.
    replace (p + n - p)%nat with n by lia.
    split; [lia|]. split; [subst s; apply substring_str_drop|].
    now apply substring_0_length. }
  induction s as [|c s IH]; intros p skip Es Hp Hskip.
  - cbn [scan]. destruct skip; [|split; [exact I | constructor]].
    destruct (match_at re "") as [n|] eqn:E; [|split; [exact I | constructor]].
    pose proof (match_at_le _ _ _ E) as Hn.
    split; [simpl; split; [lia | exact I]|].
    constructor; [|constructor]. apply (Hm "" p n); [exact Es | exact Hp | exact Hn].
  - assert (Es' : s = str_drop (S p) value) by (symmetry; now apply (str_drop_S p value c)).
    simpl in Hp, Hskip. cbn [scan]. destruct skip as [|k].
    + destruct (match_at re (String c s)) as [n|] eqn:E.
      * pose proof (match_at_le _ _ _ E) as Hn. simpl in Hn.
        destruct (IH (S p) (Nat.pred n) Es') as [IH1 IH2]; [lia | lia |].
        split.
        -- simpl. split; [lia|]. apply (match_chain_weaken (S p + Nat.pred n)); [lia | exact IH1].
        -- constructor; [|exact IH2].
           apply (Hm (String c s) p n); simpl; [exact Es | lia | exact Hn].
      * destruct (IH (S p) O Es') as [IH1 IH2]; [lia | lia |].
        split; [|exact IH2]. apply (match_chain_weaken (S p + 0)); [lia | exact IH1].
    + destruct (IH (S p) k Es') as [IH1 IH2]; [lia | lia |].
      split; [|exact IH2]. apply (match_chain_weaken (S p + k)); [lia | exact IH1].
Qed.

(** The matcher on inputs whose [re] results are known. *)
Example finditer_words :
  List.map m_group (finditer RegexTokenizer._default_expression "the Quick fox123")
  = ["the"; "Quick"; "fox123"].
Proof. vm_compute. reflexivity. Qed.

Example finditer_empty_matches :
  List.map m_group (finditer [[Atom is_lower Star]] "abAc") = ["ab"; ""; "c"; ""].
Proof. vm_compute. reflexivity. Qed.

Example finditer_gives_back :
  List.map m_group (finditer [[Atom is_lower Star; Atom is_lower One]] "abAc") = ["ab"; "c"].
Proof. vm_compute. reflexivity. Qed.

Lemma finditer_spec re value :
  match_chain 0 (finditer re value) /\ Forall (match_in value) (finditer re value).
Proof.
  unfold finditer. apply (scan_spec re value value 0 0); simpl; [reflexivity | lia | lia].
Qed.

(** ** The n-gram tokenizer *)

Section NgramTokenizerFacts.
Variable self : NgramTokenizer.t.
Variables positions chars : bool.
Variables start_char inlen : Z.

Lemma gram_token_text pos start end_ t :
  text (gram_token positions chars start_char pos start end_ t) = text t
  /\ original (gram_token positions chars start_char pos start end_ t) = original t.
Proof. unfold gram_token, when. destruct chars, positions; split; reflexivity. Qed.

Lemma sizes_loop_text pos start sizes : forall t,
  text t = None -> original t = None ->
  Forall (fun t' => text t' = None /\ original t' = None)
         (fst (NgramTokenizer.sizes_loop positions chars start_char inlen pos start t sizes))
  /\ text (snd (NgramTokenizer.sizes_loop positions chars start_char inlen pos start t sizes)) = None
  /\ original (snd (NgramTokenizer.sizes_loop positions chars start_char inlen pos start t sizes)) = None.
Proof.
  induction sizes as [|size sizes IH]; intros t Ht Ho; simpl.
  - repeat split; [constructor | exact Ht | exact Ho].
  - destruct (start + size >? inlen); [now apply IH|].
    fold (gram_token positions chars start_char pos start (start + size) t).
    destruct (gram_token_text pos start (start + size) t) as [Et Eo].
    specialize (IH (gram_token positions chars start_char pos start (start + size) t)).
    destruct (NgramTokenizer.sizes_loop _ _ _ _ _ _ (gram_token _ _ _ _ _ _ t) sizes) as [ys t'].
    simpl in *. destruct IH as (IH1 & IH2 & IH3); [congruence | congruence |].
    repeat split; [constructor; [split; congruence | exact IH1] | exact IH2 | exact IH3].
Qed.

Lemma starts_loop_text starts : forall pos t,
  text t = None -> original t = None ->
  Forall (fun t' => text t' = None /\ original t' = None)
         (yielded (NgramTokenizer.starts_loop self positions chars start_char inlen pos t starts)).
Proof.
  induction starts as [|start starts IH]; intros pos t Ht Ho; simpl; [constructor|].
  pose proof (sizes_loop_text pos start
                (xrange (NgramTokenizer.min self) (NgramTokenizer.max self + 1)) t Ht Ho) as H.
  destruct (NgramTokenizer.sizes_loop _ _ _ _ _ _ t _) as [ys t'].
  simpl in H. destruct H as (H1 & H2 & H3).
  rewrite yielded_gen_app. apply Forall_app. split; [exact H1 | now apply IH].
Qed.

(** With no size to try, the tokenizer yields nothing. *)
Lemma starts_loop_no_size starts : forall pos t,
  xrange (NgramTokenizer.min self) (NgramTokenizer.max self + 1) = [] ->
  NgramTokenizer.starts_loop self positions chars start_char inlen pos t starts = Stop.
Proof.
  induction starts as [|start starts IH]; intros pos t E; simpl; [reflexivity|].
  rewrite E. simpl. now apply IH.
Qed.
End NgramTokenizerFacts.

(** [NgramTokenizer.__call__] never assigns [text] (nor [original]): on
    every token it yields, for every configuration and input, both slots
    are absent. *)
Lemma NgramTokenizer_text_never_assigned self value positions chars start_pos start_char :
  Forall (fun t => text t = None /\ original t = None)
    (yielded (NgramTokenizer.call self value positions chars start_pos start_char)).
Proof. unfold NgramTokenizer.call. now apply starts_loop_text. Qed.

Lemma xrange_empty (lo hi : Z) : hi <= lo -> xrange lo hi = [].
Proof.
  intros H. unfold xrange. replace (Z.to_nat (hi - lo)) with O by lia. reflexivity.
Qed.

Lemma xrange_cons lo hi : lo < hi -> exists l, xrange lo hi = lo :: l.
Proof.
  intros H. unfold xrange.
  destruct (Z.to_nat (hi - lo)) as [|k] eqn:E; [lia|].
  simpl. rewrite Z.add_0_r. eexists. reflexivity.
Qed.

(** C1. The n-gram tokenizer assigns no [text]: for every configuration
    and input, the [text] slot of every token it yields is absent.  On
    ["hello"] with sizes 3..4, positions and char offsets active, it
    yields one token per (start offset, size) of the claim, with [pos]
    counting the start offsets and [startchar]/[endchar] the offsets of
    the gram, but none holds [value[i:i+s]], which is ["hel"] for the
    first. *)
Theorem C1_NgramTokenizer_text_absent :
  (forall self value positions chars start_pos start_char,
      Forall (fun t => text t = None)
        (yielded (NgramTokenizer.call self value positions chars start_pos start_char)))
  /\ let out := yielded (NgramTokenizer.call (NgramTokenizer.init 3 (Some 4))
                           "hello" true true 0 0) in
     List.map text out = [None; None; None; None]
     /\ List.map pos out = [Some 0; Some 0; Some 1; Some 1]
     /\ List.map (fun t => (startchar t, endchar t)) out
        = [(Some 0, Some 3); (Some 0, Some 4); (Some 1, Some 4); (Some 1, Some 5)]
     /\ py_slice "hello" 0 3 = "hel".
Proof.
  split.
  - intros self value positions chars start_pos start_char.
    eapply Forall_impl; [apply NgramTokenizer_text_never_assigned|].
    simpl. intros t [H _]. exact H.
  - vm_compute. repeat split; reflexivity.
Qed.

(** C2. [NgramTokenizer(3, 4)("hello")] yields four tokens, not five: the
    grams starting at offsets 0 and 1 only, and none of them carries a
    [text]. *)
Theorem C2_NgramTokenizer_hello :
  let g := NgramTokenizer.call (NgramTokenizer.init 3 (Some 4)) "hello" false true 0 0 in
  texts g = [None; None; None; None]
  /\ spans g = [(Some 0, Some 3); (Some 0, Some 4); (Some 1, Some 4); (Some 1, Some 5)]
  /\ raises g = None
  /\ texts g <> [Some "hel"; Some "hell"; Some "ell"; Some "ello"; Some "llo"].
Proof. vm_compute. repeat split; try reflexivity. discriminate. Qed.

(** ** The stem filter *)

(** On a cache miss the loop yields the stem, not the token. *)
Lemma StemFilter_miss_yields_str stem ignores cache t rest txt :
  stopped t = false -> text t = Some txt -> txt ∉ ignores -> cache !! txt = None ->
  fst (StemFilter.loop stem ignores cache (Yield t rest))
  = Yield (IStr (stem txt))
      (fst (StemFilter.loop stem ignores (<[txt := stem txt]> cache) rest)).
Proof.
  intros Hs Ht Hi Hc. simpl. rewrite Hs, Ht.
  destruct (decide (txt ∈ ignores)) as [Hin|_]; [contradiction|].
  rewrite Hc. destruct (StemFilter.loop stem ignores _ rest). reflexivity.
Qed.

(** C3. On a cache miss the stem filter does not emit the token: with an
    empty cache and no ignored word, a token with text ["running"] makes
    the filter yield the stem itself, a [str], and record it in the cache;
    the same word met again (a cache hit) is emitted as a token whose
    text is the cached stem. *)
Theorem C3_StemFilter_yields_str (stem : string -> string) :
  let t := set_text "running" (set_original "running" (Token_init false false false)) in
  let out := StemFilter.call stem (StemFilter.init None) (gen_of_list [t; t]) in
  fst out = Yield (IStr (stem "running")) (Yield (ITok (set_text (stem "running") t)) Stop)
  /\ StemFilter.cache (snd out) !! "running" = Some (stem "running").
Proof.
  cbv zeta. unfold StemFilter.call, StemFilter.init. simpl.
  destruct (decide ("running" ∈ (∅ : gset string))) as [Hin|_]; [set_solver|].
  rewrite lookup_empty. simpl.
  destruct (decide ("running" ∈ (∅ : gset string))) as [Hin|_]; [set_solver|].
  rewrite lookup_insert_eq. simpl. split; [reflexivity | apply lookup_insert_eq].
Qed.

(** ** The standard analyzer *)

(** C6. The standard analyzer is the stop filter (the pass filter when the
    stop list is [None]) applied to the lowercase filter applied to the
    pattern tokenizer; with the default settings it turns
    ["The Quick Fox JUMPS"] into the texts ["quick"], ["fox"], ["jumps"]. *)
Theorem C6_StandardAnalyzer :
  (forall words minsize value positions chars start_pos start_char,
      StandardAnalyzer.call (StandardAnalyzer.init (Some words) minsize)
        value positions chars start_pos start_char
      = StopFilter.call (StopFilter.init (Some words) minsize)
          (LowerCaseFilter
             (RegexTokenizer.call (RegexTokenizer.init None)
                value positions chars start_pos start_char)))
  /\ (forall minsize value positions chars start_pos start_char,
      StandardAnalyzer.call (StandardAnalyzer.init None minsize)
        value positions chars start_pos start_char
      = PassFilter
          (LowerCaseFilter
             (RegexTokenizer.call (RegexTokenizer.init None)
                value positions chars start_pos start_char)))
  /\ texts (StandardAnalyzer.call StandardAnalyzer.init_default
              "The Quick Fox JUMPS" false false 0 0)
     = [Some "quick"; Some "fox"; Some "jumps"]
  /\ raises (StandardAnalyzer.call StandardAnalyzer.init_default
               "The Quick Fox JUMPS" false false 0 0) = None.
Proof.
  split; [reflexivity|]. split; [reflexivity|].
  split; vm_compute; reflexivity.
Qed.

(** ** The stop filter *)

Lemma keeps_not_dropped self t txt :
  text t = Some txt -> StopFilter.keeps self txt = negb (dropped self t).
Proof.
  intros E. unfold StopFilter.keeps, dropped. rewrite E.
  rewrite Z.geb_leb, (Z.ltb_antisym (StopFilter.min self) (len txt)).
  rewrite negb_orb, negb_involutive. f_equal.
  destruct (decide (txt ∈ StopFilter.stops self)) as [H|H].
  - rewrite (bool_decide_eq_true_2 _ H). apply bool_decide_eq_false_2. tauto.
  - rewrite (bool_decide_eq_false_2 _ H). now apply bool_decide_eq_true_2.
Qed.

(** C8. On a stream of tokens that carry a text, the stop filter yields
    exactly the tokens that are not [dropped], unchanged and in their
    original order; by default the minimum length is 2 and the word set
    contains ["the"], ["a"] and ["is"], so such tokens are dropped. *)
Theorem C8_StopFilter (self : StopFilter.t) (l : list Token)
    (Htext : Forall (fun t => exists txt, text t = Some txt) l) :
  StopFilter.call self (gen_of_list l)
  = gen_of_list (List.filter (fun t => negb (dropped self t)) l)
  /\ StopFilter.min StopFilter.init_default = 2
  /\ (forall t, text t = Some "the" \/ text t = Some "a" \/ text t = Some "is" ->
        dropped StopFilter.init_default t = true)
  /\ texts (StopFilter.call StopFilter.init_default
              (gen_of_list (List.map word ["the"; "quick"; "a"; "fox"; "is"; "ok"])))
     = [Some "quick"; Some "fox"; Some "ok"].
Proof.
  split; [|split; [reflexivity|split]].
  - induction Htext as [|t l [txt E] _ IH]; simpl; [reflexivity|].
    rewrite E, (keeps_not_dropped self t txt E).
    destruct (dropped self t); simpl; now rewrite IH.
  - intros t [E|[E|E]]; unfold dropped; rewrite E; vm_compute; reflexivity.
  - vm_compute. reflexivity.
Qed.

Lemma C8_StopFilter_witness :
  Forall (fun t => exists txt, text t = Some txt) [word "the"; word "fox"]
  /\ StopFilter.call StopFilter.init_default (gen_of_list [word "the"; word "fox"])
     = gen_of_list (List.filter (fun t => negb (dropped StopFilter.init_default t))
                      [word "the"; word "fox"]).
Proof.
  assert (H : Forall (fun t => exists txt, text t = Some txt) [word "the"; word "fox"]).
  { repeat constructor; eexists; reflexivity. }
  split; [exact H | exact (proj1 (C8_StopFilter StopFilter.init_default _ H))].
Defined.

(** ** The camel-case filter *)

Lemma camel_step_absorb chars oldstart m m' t :
  camel_step chars oldstart m' (camel_step chars oldstart m t)
  = camel_step chars oldstart m' t.
Proof. unfold camel_step, when. destruct chars; reflexivity. Qed.

Lemma camel_loop_map txt chars oldstart ms : forall t t0,
  (forall m, camel_step chars oldstart m t = camel_step chars oldstart m t0) ->
  camel_loop txt chars oldstart t ms
  = List.map (fun m => camel_step chars oldstart m t0) (List.filter (differs txt) ms).
Proof.
  induction ms as [|m ms IH]; intros t t0 H; simpl; [reflexivity|].
  unfold differs at 1. destruct (negb (m_group m =? txt)%string) eqn:E; simpl.
  - fold (camel_step chars oldstart m t). rewrite H. f_equal.
    apply IH. intros m'. now rewrite camel_step_absorb.
  - now apply IH.
Qed.

Lemma camel_step_sub_token t m oldstart :
  (if chars t then startchar t else Some 0) = Some oldstart ->
  camel_step (chars t) oldstart m t = sub_token t m.
Proof.
  unfold camel_step, sub_token, when. destruct (chars t).
  - intros ->. reflexivity.
  - reflexivity.
Qed.

(** C7. [CamelFilter] reads the text of the token after its [yield t], so
    what it splits is the text the token has when the filter is resumed.
    A consumer that only reads the token sees ["getProcessedToken"],
    ["get"], ["Processed"], ["Token"], as the docstring says.  The
    docstring also says that the filter must precede [LowerCaseFilter]: in
    that chain [LowerCaseFilter] has lowered the text of the one shared
    token by the time [CamelFilter] reads it, the guard finds a lower-case
    word, and no sub-word is yielded: the consumer sees
    ["getprocessedtoken"] only, from the two filters and from
    [FancyAnalyzer], which chains them in that order. *)
Theorem C7_CamelFilter_splits_after_yield :
  texts (Shared.observe
           (Shared.CamelFilter
              (Shared.RegexTokenizer_call (RegexTokenizer.init None)
                 "getProcessedToken" true true 0 0)))
  = [Some "getProcessedToken"; Some "get"; Some "Processed"; Some "Token"]
  /\ texts (Shared.observe
              (Shared.LowerCaseFilter
                 (Shared.CamelFilter
                    (Shared.RegexTokenizer_call (RegexTokenizer.init None)
                       "getProcessedToken" true true 0 0))))
     = [Some "getprocessedtoken"]
  /\ texts (Shared.observe
              (FancyAnalyzer.call FancyAnalyzer.init_default
                 "getProcessedToken" true true 0 0))
     = [Some "getprocessedtoken"]
  /\ texts (Shared.observe
              (Shared.CamelFilter
                 (Shared.RegexTokenizer_call (RegexTokenizer.init None)
                    "hello HELLO 12345" true true 0 0)))
     = [Some "hello"; Some "HELLO"; Some "12345"].
Proof. repeat split; vm_compute; reflexivity. Qed.

(** ** Construction of the n-gram components *)

Lemma NgramFilter_starts_loop_no_size self txt chars start0 starts : forall t,
  xrange (NgramFilter.min self) (NgramFilter.max self + 1) = [] ->
  NgramFilter.starts_loop self txt chars start0 t starts = [].
Proof.
  induction starts as [|start starts IH]; intros t E; simpl; [reflexivity|].
  rewrite E. simpl. now apply IH.
Qed.

Lemma int_or_nonzero (x y : Z) : x <> 0 -> int_or (Some x) y = x.
Proof. destruct x; simpl; congruence. Qed.

(** C4 (as the code has it). With [maxsize < minsize] the construction of
    an n-gram tokenizer or filter does not fail: it returns the component
    with [min = minsize] and [max = maxsize] ([minsize] when [maxsize] is
    0), unchecked.  No error shows at invocation either: when [maxsize] is
    not 0 the tokenizer yields nothing on any input, and the filter yields
    nothing on any stream of readable tokens. *)
Theorem C4_ngram_construction_unchecked (minsize maxsize : Z)
    (Hlt : maxsize < minsize) :
  NgramTokenizer.construct minsize (Some maxsize)
  = Return (NgramTokenizer.mk minsize (if maxsize =? 0 then minsize else maxsize))
  /\ NgramFilter.construct minsize (Some maxsize)
     = Return (NgramFilter.mk minsize (if maxsize =? 0 then minsize else maxsize))
  /\ (maxsize <> 0 ->
      forall value positions chars start_pos start_char,
        NgramTokenizer.call (NgramTokenizer.init minsize (Some maxsize))
          value positions chars start_pos start_char = Stop)
  /\ (maxsize <> 0 ->
      forall l, Forall readable l ->
        NgramFilter.call (NgramFilter.init minsize (Some maxsize)) (gen_of_list l) = Stop).
Proof.
  split; [|split; [|split]].
  - unfold NgramTokenizer.construct, NgramTokenizer.init. destruct maxsize; reflexivity.
  - unfold NgramFilter.construct, NgramFilter.init. destruct maxsize; reflexivity.
  - intros Hnz value positions chars start_pos start_char.
    unfold NgramTokenizer.call. apply starts_loop_no_size.
    unfold NgramTokenizer.init. cbn [NgramTokenizer.min NgramTokenizer.max].
    rewrite int_or_nonzero by exact Hnz.
    apply xrange_empty. lia.
  - intros Hnz l Hl. induction Hl as [|t l [[txt Et] Hs] _ IH]; simpl; [reflexivity|].
    rewrite Et.
    assert (Ho : exists o, (if chars t then startchar t else Some 0) = Some o).
    { destruct (chars t); [now apply Hs | now exists 0]. }
    destruct Ho as [o ->].
    rewrite NgramFilter_starts_loop_no_size; [exact IH|].
    unfold NgramFilter.init. cbn [NgramFilter.min NgramFilter.max].
    rewrite int_or_nonzero by exact Hnz. apply xrange_empty. lia.
Qed.

Lemma C4_ngram_construction_unchecked_witness :
  2 < 3
  /\ NgramTokenizer.construct 3 (Some 2) = Return (NgramTokenizer.mk 3 2)
  /\ NgramFilter.construct 3 (Some 2) = Return (NgramFilter.mk 3 2)
  /\ NgramTokenizer.call (NgramTokenizer.init 3 (Some 2)) "hello" true true 0 0 = Stop.
Proof.
  assert (H : 2 < 3) by lia.
  pose proof (C4_ngram_construction_unchecked 3 2 H) as (H1 & H2 & H3 & _).
  split; [exact H|]. split; [exact H1|]. split; [exact H2|].
  apply H3. discriminate.
Defined.

(** C4 (as stated) fails: with [minsize = 3] and [maxsize = 2] neither
    construction raises. *)
Lemma C4_counterexample :
  2 < 3
  /\ ~ (exists e, NgramTokenizer.construct 3 (Some 2) = Raises e)
  /\ ~ (exists e, NgramFilter.construct 3 (Some 2) = Raises e).
Proof.
  split; [lia|]. split; intros [e H]; discriminate H.
Qed.

(** ** Character spans of the emitted tokens *)

Section SpanChain.
Variable next : Z -> Z -> Z.
Hypothesis next_ge : forall s e, s <= e -> s <= next s e.

Lemma span_chain_weaken lo lo' hi ts :
  lo' <= lo -> span_chain next lo hi ts -> span_chain next lo' hi ts.
Proof.
  destruct ts as [|t ts]; simpl; [tauto|].
  intros H (s & e & Hs & He & H1 & H2 & H3 & H4).
  exists s, e. repeat split; try assumption. lia.
Qed.

Lemma span_chain_within hi ts : forall lo,
  span_chain next lo hi ts -> spans_within lo hi ts.
Proof.
  induction ts as [|t ts IH]; intros lo; simpl; [constructor|].
  intros (s & e & Hs & He & H1 & H2 & H3 & H4). constructor.
  - exists s, e. repeat split; assumption.
  - apply IH. apply (span_chain_weaken (next s e)); [|exact H4].
    specialize (next_ge s e H2). lia.
Qed.

Lemma span_chain_pairwise hi ts : forall lo i j ti tj,
  span_chain next lo hi ts ->
  (i < j)%nat -> ts !! i = Some ti -> ts !! j = Some tj ->
  exists si ei sj, startchar ti = Some si /\ endchar ti = Some ei
                   /\ startchar tj = Some sj /\ si <= ei /\ next si ei <= sj.
Proof.
  induction ts as [|t ts IH]; intros lo i j ti tj; simpl; [intros _ _ [=]|].
  intros (s & e & Hs & He & H1 & H2 & H3 & H4) Hij Hi Hj.
  destruct j as [|j]; [lia|]. simpl in Hj.
  destruct i as [|i]; simpl in Hi.
  - injection Hi as <-.
    apply span_chain_within in H4. unfold spans_within in H4.
    rewrite Forall_lookup in H4.
    destruct (H4 j tj Hj) as (sj & ej & Hsj & _ & Hge & _).
    exists s, e, sj. repeat split; assumption.
  - apply (IH (next s e) i j); [exact H4 | lia | exact Hi | exact Hj].
Qed.
End SpanChain.

Lemma span_chain_disjoint lo hi ts :
  span_chain (fun _ e => e) lo hi ts ->
  spans_within lo hi ts /\ starts_nondecreasing ts /\ spans_disjoint ts.
Proof.
  intros H.
  assert (Hn : forall s e : Z, s <= e -> s <= (fun _ e' : Z => e') s e)
    by (intros s e; simpl; lia).
  split; [|split].
  - apply (span_chain_within (fun _ e => e)); [exact Hn | exact H].
  - intros i j ti tj Hij Hi Hj.
    destruct (span_chain_pairwise (fun _ e => e) Hn
                hi ts lo i j ti tj H Hij Hi Hj) as (si & ei & sj & A & B & C & D & E).
    exists si, sj. repeat split; try assumption. lia.
  - intros i j ti tj Hij Hi Hj.
    destruct (span_chain_pairwise (fun _ e => e) Hn
                hi ts lo i j ti tj H Hij Hi Hj) as (si & ei & sj & A & B & C & D & E).
    exists ei, sj. repeat split; assumption.
Qed.

Lemma span_chain_starts lo hi ts :
  span_chain (fun s _ => s) lo hi ts ->
  spans_within lo hi ts /\ starts_nondecreasing ts.
Proof.
  intros H.
  assert (Hn : forall s e : Z, s <= e -> s <= (fun s' _ : Z => s') s e)
    by (intros s e; simpl; lia).
  split.
  - apply (span_chain_within (fun s _ => s)); [exact Hn | exact H].
  - intros i j ti tj Hij Hi Hj.
    destruct (span_chain_pairwise (fun s _ => s) Hn
                hi ts lo i j ti tj H Hij Hi Hj) as (si & ei & sj & A & B & C & D & E).
    exists si, sj. repeat split; assumption.
Qed.

(** The pattern tokenizers: the spans follow the matches. *)
Lemma match_loop_chain group_text positions start_pos start_char value ms :
  forall t i lo,
    match_chain lo ms -> Forall (match_in value) ms ->
    span_chain (fun _ e => e) (start_char + Z.of_nat lo) (start_char + len value)
      (yielded (match_loop group_text positions true start_pos start_char t i ms)).
Proof.
  induction ms as [|m ms IH]; intros t i lo Hc Hin; simpl; [exact I|].
  destruct Hc as [Hlo Hc]. inversion Hin as [|m' ms' [Hb _] Hin']; subst.
  exists (start_char + Z.of_nat (m_start m)), (start_char + Z.of_nat (m_end m)).
  split; [reflexivity|]. split; [reflexivity|].
  unfold len. repeat split; try lia.
  now apply IH.
Qed.

Lemma regex_spans group_text re value positions start_pos start_char :
  let ts := yielded (match_loop group_text positions true start_pos start_char
                       (Token_init positions true false) 0 (finditer re value)) in
  spans_within start_char (start_char + len value) ts
  /\ starts_nondecreasing ts /\ spans_disjoint ts.
Proof.
  intros ts. destruct (finditer_spec re value) as [Hc Hin].
  apply (span_chain_disjoint start_char).
  replace start_char with (start_char + Z.of_nat 0) at 1 by lia.
  now apply match_loop_chain.
Qed.

Lemma ascending_seq lo n : forall a,
  ascending (lo + Z.of_nat a) (List.map (fun k => lo + Z.of_nat k) (seq a n)).
Proof.
  induction n as [|n IH]; intros a; simpl; [exact I|].
  split; [lia|]. specialize (IH (S a)).
  destruct (seq (S a) n); simpl in *; [exact I|]. split; [lia | tauto].
Qed.

Lemma xrange_ascending lo hi : ascending lo (xrange lo hi).
Proof.
  unfold xrange. pose proof (ascending_seq lo (Z.to_nat (hi - lo)) 0) as H.
  now replace (lo + Z.of_nat 0) with lo in H by lia.
Qed.

Lemma ascending_Forall l : forall lo, ascending lo l -> Forall (fun x => lo <= x) l.
Proof.
  induction l as [|x l IH]; intros lo; simpl; [constructor|].
  intros [H1 H2]. constructor; [exact H1|].
  apply IH in H2. eapply Forall_impl; [exact H2|]. simpl. intros; lia.
Qed.

(** The n-gram tokenizer: all the grams of one start offset share their
    [startchar], and the start offsets go up. *)
Section NgramSpans.
Variable self : NgramTokenizer.t.
Variable positions : bool.
Variables start_char inlen : Z.

Lemma sizes_loop_spans pos start sizes : forall t,
  Forall (fun size => 0 <= size) sizes ->
  Forall (fun t' => startchar t' = Some (start_char + start)
                    /\ exists e, endchar t' = Some e
                                 /\ start_char + start <= e <= start_char + inlen)
    (fst (NgramTokenizer.sizes_loop positions true start_char inlen pos start t sizes)).
Proof.
  induction sizes as [|size sizes IH]; intros t Hs; simpl; [constructor|].
  inversion Hs as [|x l Hsize Hs']; subst.
  destruct (Z.gtb_spec (start + size) inlen) as [Hgt|Hle]; [now apply IH|].
  match goal with |- context [NgramTokenizer.sizes_loop _ _ _ _ _ _ ?u sizes] =>
    specialize (IH u Hs');
    destruct (NgramTokenizer.sizes_loop positions true start_char inlen pos start u sizes)
      as [ys t'] end.
  simpl in *. constructor; [|exact IH].
  split; [reflexivity|]. exists (start_char + (start + size)).
  split; [reflexivity | lia].
Qed.

Lemma span_chain_same_start lo s hi ys zs :
  lo <= s ->
  Forall (fun t' => startchar t' = Some s
                    /\ exists e, endchar t' = Some e /\ s <= e <= hi) ys ->
  (forall lo', lo' <= s -> span_chain (fun s' _ => s') lo' hi zs) ->
  span_chain (fun s' _ => s') lo hi (ys ++ zs)%list.
Proof.
  intros Hlo Hys Hzs. revert lo Hlo.
  induction Hys as [|t ys (Hs & e & He & Hb) _ IH]; intros lo Hlo; simpl.
  - now apply Hzs.
  - exists s, e. repeat split; try assumption; try lia. apply IH. lia.
Qed.

Lemma starts_loop_spans starts : forall pos t lo,
  0 <= NgramTokenizer.min self ->
  ascending lo starts ->
  span_chain (fun s _ => s) (start_char + lo) (start_char + inlen)
    (yielded (NgramTokenizer.starts_loop self positions true start_char inlen pos t starts)).
Proof.
  induction starts as [|start starts IH]; intros pos t lo Hmin Hasc; simpl; [exact I|].
  destruct Hasc as [Hlo Hasc].
  pose proof (sizes_loop_spans pos start
                (xrange (NgramTokenizer.min self) (NgramTokenizer.max self + 1)) t) as H.
  destruct (NgramTokenizer.sizes_loop _ _ _ _ _ _ t _) as [ys t'].
  rewrite yielded_gen_app. simpl in H.
  apply (span_chain_same_start _ (start_char + start)); [lia | |].
  - apply H. pose proof (xrange_ascending (NgramTokenizer.min self)
                           (NgramTokenizer.max self + 1)) as Ha.
    apply ascending_Forall in Ha. eapply Forall_impl; [exact Ha|]. simpl. intros; lia.
  - intros lo' Hlo'. apply (span_chain_weaken _ (start_char + start)); [exact Hlo'|].
    now apply IH.
Qed.
End NgramSpans.

Lemma close_chain_overlap lo ts : forall prev,
  2 <= lo -> close_chain lo prev ts -> consecutive_overlap ts.
Proof.
  induction ts as [|t ts IH]; intros prev Hlo H i ti tj Hi Hj; [discriminate|].
  destruct H as (s & e & Hs & He & _ & Hw & H).
  destruct i as [|i].
  - simpl in Hi, Hj. revert Hi. intros [= <-].
    destruct ts as [|u ts]; [discriminate|]. simpl in Hj. revert Hj. intros [= <-].
    destruct H as (s' & e' & Hs' & _ & Hc & _).
    exists e, s'. split; [exact He|]. split; [exact Hs' | lia].
  - now apply (IH s Hlo H i ti tj).
Qed.

Lemma close_chain_same_start lo s ys zs :
  Forall (fun t' => startchar t' = Some s
                    /\ exists e, endchar t' = Some e /\ s + lo <= e) ys ->
  close_chain lo s zs ->
  forall prev, s <= prev + 1 -> (ys = [] -> close_chain lo prev zs) ->
  close_chain lo prev (ys ++ zs)%list.
Proof.
  intros Hys Hzs.
  induction Hys as [|t ys (Hs & e & He & Hw) _ IH]; intros prev Hp Hnil; simpl.
  - now apply Hnil.
  - exists s, e. repeat split; try assumption.
    apply IH; [lia | intros _; exact Hzs].
Qed.

(** The n-gram tokenizer: the first size always fits, so every start
    offset gives a gram, and a gram is at least [min] wide. *)
Section NgramOverlap.
Variable self : NgramTokenizer.t.
Variable positions : bool.
Variables start_char inlen : Z.

Lemma sizes_loop_wide pos start sizes : forall t,
  Forall (fun size => NgramTokenizer.min self <= size) sizes ->
  Forall (fun t' => startchar t' = Some (start_char + start)
                    /\ exists e, endchar t' = Some e
                                 /\ start_char + start + NgramTokenizer.min self <= e)
    (fst (NgramTokenizer.sizes_loop positions true start_char inlen pos start t sizes)).
Proof.
  induction sizes as [|size sizes IH]; intros t Hs; simpl; [constructor|].
  inversion Hs as [|x l Hsize Hs']; subst.
  destruct (Z.gtb_spec (start + size) inlen) as [Hgt|Hle]; [now apply IH|].
  match goal with |- context [NgramTokenizer.sizes_loop _ _ _ _ _ _ ?u sizes] =>
    specialize (IH u Hs');
    destruct (NgramTokenizer.sizes_loop positions true start_char inlen pos start u sizes)
      as [ys t'] end.
  simpl in *. constructor; [|exact IH].
  split; [reflexivity|]. exists (start_char + (start + size)).
  split; [reflexivity | lia].
Qed.

Lemma sizes_loop_first pos start t :
  NgramTokenizer.min self <= NgramTokenizer.max self ->
  start + NgramTokenizer.min self <= inlen ->
  fst (NgramTokenizer.sizes_loop positions true start_char inlen pos start t
         (xrange (NgramTokenizer.min self) (NgramTokenizer.max self + 1))) <> [].
Proof.
  intros Hle Hfit.
  destruct (xrange_cons (NgramTokenizer.min self) (NgramTokenizer.max self + 1))
    as [l ->]; [lia|].
  simpl. destruct (Z.gtb_spec (start + NgramTokenizer.min self) inlen) as [Hgt|_]; [lia|].
  match goal with |- context [NgramTokenizer.sizes_loop _ _ _ _ _ _ ?u l] =>
    destruct (NgramTokenizer.sizes_loop positions true start_char inlen pos start u l)
      as [ys t'] end.
  discriminate.
Qed.

Lemma starts_loop_close n : forall a pos t,
  NgramTokenizer.min self <= NgramTokenizer.max self ->
  Z.of_nat a + Z.of_nat n + NgramTokenizer.min self <= inlen ->
  close_chain (NgramTokenizer.min self) (start_char + (0 + Z.of_nat a) - 1)
    (yielded (NgramTokenizer.starts_loop self positions true start_char inlen pos t
                (List.map (fun k => 0 + Z.of_nat k) (seq a n)))).
Proof.
  induction n as [|n IH]; intros a pos t Hle Hfit; [exact I|].
  cbn [seq List.map NgramTokenizer.starts_loop].
  pose proof (sizes_loop_wide pos (0 + Z.of_nat a)
                (xrange (NgramTokenizer.min self) (NgramTokenizer.max self + 1)) t) as Hw.
  pose proof (sizes_loop_first pos (0 + Z.of_nat a) t Hle) as Hne.
  destruct (NgramTokenizer.sizes_loop _ _ _ _ _ _ t _) as [ys t'].
  rewrite yielded_gen_app. simpl in Hw, Hne.
  apply (close_chain_same_start _ (start_char + (0 + Z.of_nat a))).
  - apply Hw. apply ascending_Forall, xrange_ascending.
  - replace (start_char + (0 + Z.of_nat a))
      with (start_char + (0 + Z.of_nat (S a)) - 1) by lia.
    apply IH; [exact Hle | lia].
  - lia.
  - intros E. exfalso. apply Hne; [lia | exact E].
Qed.
End NgramOverlap.

Lemma NgramTokenizer_overlap self value positions start_pos start_char :
  2 <= NgramTokenizer.min self ->
  consecutive_overlap
    (yielded (NgramTokenizer.call self value positions true start_pos start_char)).
Proof.
  intros Hmin. unfold NgramTokenizer.call.
  destruct (Z_le_gt_dec (NgramTokenizer.min self) (NgramTokenizer.max self)) as [Hle|Hgt].
  - apply (close_chain_overlap (NgramTokenizer.min self) _ (start_char + (0 + Z.of_nat 0) - 1) Hmin).
    destruct (Z_le_gt_dec (len value - NgramTokenizer.min self) 0) as [Hshort|Hlong].
    + rewrite xrange_empty by lia. exact I.
    + unfold xrange. apply starts_loop_close; [exact Hle | lia].
  - rewrite starts_loop_no_size by (apply xrange_empty; lia).
    intros i ti tj Hi. discriminate.
Qed.

(** C5 (as the code has it). With char offsets active, the spans emitted
    by the identity tokenizer and by the pattern, space and comma
    tokenizers (whatever their expression) lie in the input, at
    [start_char + [0, len(value)]], in non-decreasing start order and
    without overlap: a later span starts at or after the end of an earlier
    one.  The spans of the n-gram tokenizer (for a non-negative minimum
    size) lie in the input and start in non-decreasing order.  Non-overlap
    does not hold for them: for a minimum size of 2 or more every two
    consecutive spans overlap (the later one starts before the earlier one
    ends), so that the spans are not pairwise non-overlapping as soon as
    two tokens are emitted. *)
Theorem C5_tokenizer_spans (value : string) (positions : bool) (start_pos start_char : Z) :
  (let ts := yielded (IDTokenizer value positions true start_pos start_char) in
   spans_within start_char (start_char + len value) ts
   /\ starts_nondecreasing ts /\ spans_disjoint ts)
  /\ (forall re,
       let ts := yielded (RegexTokenizer.call (RegexTokenizer.init re)
                            value positions true start_pos start_char) in
       spans_within start_char (start_char + len value) ts
       /\ starts_nondecreasing ts /\ spans_disjoint ts)
  /\ (forall re,
       let ts := yielded (SpaceSeparatedTokenizer.call (SpaceSeparatedTokenizer.init re)
                            value positions true start_pos start_char) in
       spans_within start_char (start_char + len value) ts
       /\ starts_nondecreasing ts /\ spans_disjoint ts)
  /\ (forall re,
       let ts := yielded (CommaSeparatedTokenizer.call (CommaSeparatedTokenizer.init re)
                            value positions true start_pos start_char) in
       spans_within start_char (start_char + len value) ts
       /\ starts_nondecreasing ts /\ spans_disjoint ts)
  /\ (forall self, 0 <= NgramTokenizer.min self ->
       let ts := yielded (NgramTokenizer.call self
                            value positions true start_pos start_char) in
       spans_within start_char (start_char + len value) ts
       /\ starts_nondecreasing ts)
  /\ (forall self, 2 <= NgramTokenizer.min self ->
       let ts := yielded (NgramTokenizer.call self
                            value positions true start_pos start_char) in
       consecutive_overlap ts
       /\ ((2 <= length ts)%nat -> ~ spans_disjoint ts)).
Proof.
  split; [|split; [|split; [|split; [|split]]]].
  - apply (span_chain_disjoint start_char). simpl.
    exists start_char, (start_char + len value).
    unfold len. repeat split; try lia; destruct positions; reflexivity.
  - intros re. apply regex_spans.
  - intros re. apply regex_spans.
  - intros re. apply regex_spans.
  - intros self Hmin ts. apply (span_chain_starts start_char).
    replace start_char with (start_char + 0) at 1 by lia.
    apply starts_loop_spans; [exact Hmin | apply xrange_ascending].
  - intros self Hmin ts.
    assert (Hov : consecutive_overlap ts) by now apply NgramTokenizer_overlap.
    split; [exact Hov|].
    intros Hlen Hdis. destruct ts as [|ti [|tj l]]; simpl in Hlen; [lia | lia |].
    destruct (Hov 0%nat ti tj eq_refl eq_refl) as (ei & sj & He & Hs & Hlt).
    destruct (Hdis 0%nat 1%nat ti tj ltac:(lia) eq_refl eq_refl)
      as (ei' & sj' & He' & Hs' & Hle).
    rewrite He in He'. rewrite Hs in Hs'.
    revert He' Hs'. intros [= <-] [= <-]. lia.
Qed.

Lemma C5_tokenizer_spans_witness :
  0 <= NgramTokenizer.min (NgramTokenizer.init 3 (Some 4))
  /\ 2 <= NgramTokenizer.min (NgramTokenizer.init 3 (Some 4))
  /\ (spans_within 0 (0 + len "hello")
        (yielded (NgramTokenizer.call (NgramTokenizer.init 3 (Some 4)) "hello" true true 0 0))
      /\ starts_nondecreasing
           (yielded (NgramTokenizer.call (NgramTokenizer.init 3 (Some 4)) "hello" true true 0 0)))
  /\ consecutive_overlap
       (yielded (NgramTokenizer.call (NgramTokenizer.init 3 (Some 4)) "hello" true true 0 0)).
Proof.
  assert (H0 : 0 <= NgramTokenizer.min (NgramTokenizer.init 3 (Some 4))) by (simpl; lia).
  assert (H2 : 2 <= NgramTokenizer.min (NgramTokenizer.init 3 (Some 4))) by (simpl; lia).
  split; [exact H0|]. split; [exact H2|]. split.
  - exact (proj1 (proj2 (proj2 (proj2 (proj2 (C5_tokenizer_spans "hello" true 0 0)))))
             (NgramTokenizer.init 3 (Some 4)) H0).
  - exact (proj1 (proj2 (proj2 (proj2 (proj2 (proj2 (C5_tokenizer_spans "hello" true 0 0)))))
                    (NgramTokenizer.init 3 (Some 4)) H2)).
Defined.

(** C5 (as stated) fails for the n-gram tokenizer: on ["hello"] with sizes
    3..4 the first two spans are [[0, 3)] and [[0, 4)], which overlap. *)
Lemma C5_counterexample :
  spans (NgramTokenizer.call (NgramTokenizer.init 3 (Some 4)) "hello" true true 0 0)
  = [(Some 0, Some 3); (Some 0, Some 4); (Some 1, Some 4); (Some 1, Some 5)]
  /\ ~ spans_disjoint
         (yielded (NgramTokenizer.call (NgramTokenizer.init 3 (Some 4)) "hello" true true 0 0)).
Proof.
  split; [vm_compute; reflexivity|].
  intros H.
  destruct (H 0%nat 1%nat _ _ ltac:(lia) eq_refl eq_refl) as (ei & sj & He & Hs & Hle).
  vm_compute in He, Hs. injection He as <-. injection Hs as <-. lia.
Qed.

(** ** The comma-separated tokenizer *)

Lemma lstrip_length_le s : (String.length (lstrip s) <= String.length s)%nat.
Proof.
  induction s as [|c s IH]; simpl; [lia|]. destruct (is_space c); simpl; lia.
Qed.

Lemma rstrip_length_le s : (String.length (rstrip s) <= String.length s)%nat.
Proof.
  induction s as [|c s IH]; simpl; [lia|].
  destruct (rstrip s) as [|c' r]; [destruct (is_space c)|]; simpl in *; lia.
Qed.





Lemma py_slice_nat value a b :
  (a <= b <= String.length value)%nat ->
  py_slice value (Z.of_nat a) (Z.of_nat b) = substring a (b - a) value.
Proof.
  intros H. unfold py_slice, slice_index, len.
  destruct (Z.ltb_spec (Z.of_nat a) 0) as [?|_]; [lia|].
  destruct (Z.ltb_spec (Z.of_nat b) 0) as [?|_]; [lia|].
  rewrite !Z.min_l by lia. f_equal; lia.
Qed.




(** * Further properties of the module *)

(** ** What a match contains *)

Lemma str_forallb_app p s1 s2 :
  str_forallb p (s1 ++ s2) = str_forallb p s1 && str_forallb p s2.
Proof.
  induction s1 as [|c s1 IH]; simpl; [reflexivity|].
  rewrite IH. now rewrite andb_assoc.
Qed.

Lemma str_forallb_impl (p q : ascii -> bool) s :
  (forall c, p c = true -> q c = true) ->
  str_forallb p s = true -> str_forallb q s = true.
Proof.
  intros Hpq. induction s as [|c s IH]; simpl; [reflexivity|].
  intros H. apply andb_true_iff in H. destruct H as [H1 H2].
  rewrite (Hpq c H1). now apply IH.
Qed.

Lemma substring_0_add k : forall s m,
  substring 0 (k + m) s = substring 0 k s ++ substring 0 m (str_drop k s).
Proof.
  induction k as [|k IH]; intros s m.
  - simpl. destruct s; reflexivity.
  - destruct s as [|c s]; simpl.
    + destruct m; reflexivity.
    + now rewrite IH.
Qed.

Lemma run_prefix p k : forall s,
  (k <= run_length p s)%nat -> str_forallb p (substring 0 k s) = true.
Proof.
  induction k as [|k IH]; intros s H.
  - destruct s; reflexivity.
  - destruct s as [|c s]; simpl in *; [lia|].
    destruct (p c) eqn:E; [|lia]. simpl. apply IH. lia.
Qed.

(** The atom that [match_seq] starts with took [k] characters of its
    class and the rest matched what follows. *)
Lemma match_seq_cons_inv a rest s n :
  match_seq (a :: rest) s = Some n ->
  exists k m, (k <= run_length (cls a) s)%nat
              /\ (qt a <> Star -> 1 <= k)%nat
              /\ match_seq rest (str_drop k s) = Some m /\ n = (k + m)%nat.
Proof.
  rewrite match_seq_cons.
  assert (Hk : forall k, match_rest rest s k = Some n ->
               exists m, match_seq rest (str_drop k s) = Some m /\ n = (k + m)%nat).
  { unfold match_rest. intros k H.
    destruct (match_seq rest (str_drop k s)) as [m|]; [|discriminate].
    simpl in H. revert H. intros [= <-]. now exists m. }
  destruct (qt a) eqn:Eq.
  - destruct (Nat.leb_spec 1 (run_length (cls a) s)) as [Hge|Hlt]; [|discriminate].
    intros H. destruct (Hk _ H) as (m & H1 & H2).
    exists 1%nat, m. repeat split; [lia | lia | exact H1 | exact H2].
  - intros H. apply try_down_Some in H. destruct H as (k & Hle & H).
    destruct (Hk _ H) as (m & H1 & H2).
    exists k, m. repeat split; [lia | congruence | exact H1 | exact H2].
  - destruct (Nat.leb_spec 1 (run_length (cls a) s)) as [Hge|Hlt]; [|discriminate].
    intros H. apply try_down_Some in H. destruct H as (k & Hle & H).
    destruct (Hk _ H) as (m & H1 & H2).
    exists k, m. repeat split; [lia | lia | exact H1 | exact H2].
Qed.

Lemma match_seq_chars atoms : forall s n,
  match_seq atoms s = Some n ->
  str_forallb (fun c => existsb (fun a => cls a c) atoms) (substring 0 n s) = true.
Proof.
  induction atoms as [|a rest IH]; intros s n H.
  - simpl in H. revert H. intros [= <-]. destruct s; reflexivity.
  - apply match_seq_cons_inv in H. destruct H as (k & m & Hk & _ & Hm & ->).
    rewrite substring_0_add, str_forallb_app. apply andb_true_iff. split.
    + apply (str_forallb_impl (cls a)); [|now apply run_prefix].
      intros c Hc. simpl. now rewrite Hc.
    + apply (str_forallb_impl (fun c => existsb (fun a => cls a c) rest)); [|now apply IH].
      intros c Hc. simpl. rewrite Hc. apply orb_true_r.
Qed.

Lemma match_at_chars re : forall s n,
  match_at re s = Some n -> str_forallb (re_class re) (substring 0 n s) = true.
Proof.
  induction re as [|alt re IH]; intros s n; simpl; [discriminate|].
  destruct (match_seq alt s) as [m|] eqn:E.
  - intros [= <-].
    apply (str_forallb_impl (fun c => existsb (fun a => cls a c) alt));
      [|now apply match_seq_chars].
    intros c Hc. unfold re_class. simpl. now rewrite Hc.
  - intros H. apply (str_forallb_impl (re_class re)); [|now apply IH].
    intros c Hc. unfold re_class in *. simpl. rewrite Hc. apply orb_true_r.
Qed.

Lemma match_at_nonempty re : forall s n,
  never_empty re = true -> match_at re s = Some n -> (1 <= n)%nat.
Proof.
  induction re as [|alt re IH]; intros s n Hne; simpl; [discriminate|].
  simpl in Hne. apply andb_true_iff in Hne. destruct Hne as [Halt Hre].
  destruct (match_seq alt s) as [m|] eqn:E; [|now apply IH].
  intros [= <-]. destruct alt as [|a rest]; [discriminate|].
  apply match_seq_cons_inv in E. destruct E as (k & m' & _ & Hk & _ & ->).
  assert (qt a <> Star) by (destruct (qt a); congruence). specialize (Hk H). lia.
Qed.

(** Every match the scan reports comes from [match_at] at its start. *)
Lemma scan_matches re : forall s p skip,
  Forall (fun m => exists s' n, match_at re s' = Some n
                                /\ m_group m = substring 0 n s'
                                /\ (n <= String.length s')%nat)
         (scan re s p skip).
Proof.
  induction s as [|c s IH]; intros p skip; cbn [scan].
  - destruct skip; [|constructor].
    destruct (match_at re "") as [n|] eqn:E; constructor; [|constructor].
    exists "", n. split; [exact E|]. split; [reflexivity | now apply (match_at_le re)].
  - destruct skip as [|k]; [|apply IH].
    destruct (match_at re (String c s)) as [n|] eqn:E; [|apply IH].
    constructor; [|apply IH].
    exists (String c s), n. split; [exact E|]. split; [reflexivity | now apply (match_at_le re)].
Qed.

Lemma finditer_groups re value :
  Forall (fun m => str_forallb (re_class re) (m_group m) = true
                   /\ (never_empty re = true -> m_group m <> ""))
         (finditer re value).
Proof.
  unfold finditer. eapply Forall_impl; [apply scan_matches|].
  simpl. intros m (s' & n & Hm & Hg & Hn). rewrite Hg. split.
  - now apply match_at_chars.
  - intros Hne E. pose proof (match_at_nonempty re s' n Hne Hm) as H1.
    pose proof (substring_0_length n s' Hn) as Hl. rewrite E in Hl. simpl in Hl. lia.
Qed.

(** ** The pattern tokenizers, token by token *)

Lemma match_loop_length group_text positions chars start_pos start_char ms : forall t i,
  length (yielded (match_loop group_text positions chars start_pos start_char t i ms))
  = length ms
  /\ raises (match_loop group_text positions chars start_pos start_char t i ms) = None.
Proof.
  induction ms as [|m ms IH]; intros t i; simpl; [split; reflexivity|].
  destruct (IH (when chars
                  (fun t0 => set_endchar (start_char + Z.of_nat (m_end m))
                               (set_startchar (start_char + Z.of_nat (m_start m)) t0))
                  (when positions (set_pos (start_pos + Z.of_nat i))
                     (set_stopped false
                        (set_text (group_text (m_group m))
                           (set_original (group_text (m_group m)) t))))) (S i)) as [H1 H2].
  split; [now rewrite H1 | exact H2].
Qed.

Lemma match_loop_lookup group_text positions chars start_pos start_char ms :
  forall t i j tj,
    yielded (match_loop group_text positions chars start_pos start_char t i ms) !! j = Some tj ->
    exists m, ms !! j = Some m
      /\ text tj = Some (group_text (m_group m))
      /\ original tj = Some (group_text (m_group m))
      /\ stopped tj = false
      /\ (positions = true -> pos tj = Some (start_pos + Z.of_nat (i + j)))
      /\ (chars = true -> startchar tj = Some (start_char + Z.of_nat (m_start m))
                          /\ endchar tj = Some (start_char + Z.of_nat (m_end m))).
Proof.
  induction ms as [|m ms IH]; intros t i j tj; simpl; [intros [=]|].
  destruct j as [|j]; simpl.
  - intros [= <-]. exists m. split; [reflexivity|].
    unfold when. destruct chars, positions; simpl;
      repeat split; try reflexivity; try discriminate;
      intros _; f_equal; lia.
  - intros H. apply IH in H. destruct H as (m' & H1 & H2 & H3 & H4 & H5 & H6).
    exists m'. repeat split; try assumption; try (now apply H6).
    intros Hp. rewrite (H5 Hp). f_equal. lia.
Qed.



(** X2. With char offsets active, the offsets of a token of the pattern
    tokenizer delimit its text in the input: [text] is
    [value[startchar - start_char : endchar - start_char]] and
    [endchar - startchar] is the length of the text. *)
Theorem X2_RegexTokenizer_offsets_delimit_text (self : RegexTokenizer.t) (value : string)
    (positions : bool) (start_pos start_char : Z) :
  Forall (fun t => exists txt s e,
            text t = Some txt /\ startchar t = Some s /\ endchar t = Some e
            /\ py_slice value (s - start_char) (e - start_char) = txt
            /\ e - s = len txt)
    (yielded (RegexTokenizer.call self value positions true start_pos start_char)).
Proof.
  apply Forall_lookup. intros i t H. unfold RegexTokenizer.call in H.
  apply match_loop_lookup in H. destruct H as (m & Hm & Ht & _ & _ & _ & Hc).
  destruct (Hc eq_refl) as [Hs He].
  destruct (finditer_spec (RegexTokenizer.expression self) value) as [_ Hin].
  rewrite Forall_lookup in Hin. destruct (Hin i m Hm) as (Hb & Hg & Hl).
  exists (m_group m), (start_char + Z.of_nat (m_start m)), (start_char + Z.of_nat (m_end m)).
  split; [exact Ht|]. split; [exact Hs|]. split; [exact He|].
  replace (start_char + Z.of_nat (m_start m) - start_char) with (Z.of_nat (m_start m)) by lia.
  replace (start_char + Z.of_nat (m_end m) - start_char) with (Z.of_nat (m_end m)) by lia.
  split.
  - rewrite py_slice_nat by exact Hb. now rewrite Hg.
  - unfold len. lia.
Qed.

Lemma match_loop_texts group_text positions chars start_pos start_char ms : forall t i,
  texts (match_loop group_text positions chars start_pos start_char t i ms)
  = List.map (fun m => Some (group_text (m_group m))) ms.
Proof.
  unfold texts. induction ms as [|m ms IH]; intros t i; simpl; [reflexivity|].
  rewrite IH. f_equal. unfold when. destruct chars, positions; reflexivity.
Qed.

Lemma re_class_single p c : re_class [[Atom p Plus]] c = p c.
Proof. unfold re_class. simpl. now rewrite !orb_false_r. Qed.

(** The tokens of a pattern [[p]+]: non-empty runs of [p] characters. *)
Lemma plus_tokenizer_tokens p value positions chars start_pos start_char :
  Forall (fun t => exists txt, text t = Some txt /\ txt <> ""
                               /\ str_forallb p txt = true)
    (yielded (RegexTokenizer.call (RegexTokenizer.mk [[Atom p Plus]])
                value positions chars start_pos start_char)).
Proof.
  apply Forall_lookup. intros i t Ht. unfold RegexTokenizer.call in Ht.
  apply match_loop_lookup in Ht. destruct Ht as (m & Hm & Ht & _).
  pose proof (finditer_groups [[Atom p Plus]] value) as Hg.
  rewrite Forall_lookup in Hg. destruct (Hg i m Hm) as [H1 H2].
  exists (m_group m). split; [exact Ht|]. split; [now apply H2|].
  apply (str_forallb_impl (re_class [[Atom p Plus]])); [|exact H1].
  intros c. now rewrite re_class_single.
Qed.

(** X3. The tokens of the default pattern tokenizer are non-empty and made
    of word characters only; those of the space-separated analyzer are
    non-empty and contain none of space, tab, carriage return and line
    feed. *)
Theorem X3_default_tokens_characters (value : string) (positions chars : bool)
    (start_pos start_char : Z) :
  Forall (fun t => exists txt, text t = Some txt /\ txt <> ""
                               /\ str_forallb is_word txt = true)
    (yielded (RegexTokenizer.call (RegexTokenizer.init None)
                value positions chars start_pos start_char))
  /\ Forall (fun t => exists txt, text t = Some txt /\ txt <> ""
                                  /\ str_forallb not_blank txt = true)
       (yielded (SpaceSeparatedAnalyzer.call SpaceSeparatedAnalyzer.init
                   value positions chars start_pos start_char)).
Proof.
  split; [apply (plus_tokenizer_tokens is_word) | apply (plus_tokenizer_tokens not_blank)].
Qed.

(** ** Nothing but the separators is lost *)

Lemma try_down_top f lo n r : f (lo + n)%nat = Some r -> try_down f lo n = Some r.
Proof. intros H. destruct n; simpl; now rewrite H. Qed.

Lemma match_at_single_plus p s :
  match_at [[Atom p Plus]] s
  = if (1 <=? run_length p s)%nat then Some (run_length p s) else None.
Proof.
  cbn [match_at]. rewrite match_seq_cons. cbn [qt cls].
  destruct (Nat.leb_spec 1 (run_length p s)) as [Hge|Hlt]; [|reflexivity].
  rewrite (try_down_top _ 1 (run_length p s - 1) (run_length p s)); [reflexivity|].
  unfold match_rest. simpl. f_equal. lia.
Qed.

Lemma str_filter_run p : forall s,
  str_filter p s
  = substring 0 (run_length p s) s ++ str_filter p (str_drop (run_length p s) s).
Proof.
  induction s as [|c s IH]; simpl; [reflexivity|].
  destruct (p c) eqn:E; simpl.
  - rewrite IH at 1. reflexivity.
  - now rewrite E.
Qed.

Lemma scan_single_plus_join p : forall s pos skip,
  (skip <= run_length p s)%nat ->
  join (List.map m_group (scan [[Atom p Plus]] s pos skip))
  = str_filter p (str_drop skip s).
Proof.
  induction s as [|c s IH]; intros pos skip Hskip; cbn [scan].
  - simpl in Hskip. replace skip with O by lia.
    rewrite match_at_single_plus. reflexivity.
  - destruct skip as [|k].
    + rewrite match_at_single_plus. cbn [run_length str_drop str_filter].
      destruct (p c) eqn:E.
      * cbn [Nat.leb List.map join m_group Nat.pred].
        rewrite (IH (S pos) (run_length p s)) by lia.
        change (substring 0 (S (run_length p s)) (String c s))
          with (String c (substring 0 (run_length p s) s)).
        rewrite (str_filter_run p s) at 1. reflexivity.
      * simpl. apply (IH (S pos) O). lia.
    + simpl in Hskip. destruct (p c) eqn:E; [|lia].
      cbn [str_drop]. apply IH. lia.
Qed.

(** X4. Tokenizing loses only the separators: the texts of the default
    pattern tokenizer, put end to end, are the word characters of the
    input in their order, and those of the space-separated analyzer are
    the input without its spaces, tabs, carriage returns and line feeds. *)
Theorem X4_tokens_join_to_filtered_input (value : string) (positions chars : bool)
    (start_pos start_char : Z) :
  (exists l, texts (RegexTokenizer.call (RegexTokenizer.init None)
                      value positions chars start_pos start_char) = List.map Some l
             /\ join l = str_filter is_word value)
  /\ (exists l, texts (SpaceSeparatedAnalyzer.call SpaceSeparatedAnalyzer.init
                         value positions chars start_pos start_char) = List.map Some l
                /\ join l = str_filter not_blank value).
Proof.
  assert (H : forall p,
    exists l, texts (RegexTokenizer.call (RegexTokenizer.mk [[Atom p Plus]])
                       value positions chars start_pos start_char) = List.map Some l
              /\ join l = str_filter p value).
  { intros p. exists (List.map m_group (finditer [[Atom p Plus]] value)). split.
    - unfold RegexTokenizer.call. rewrite match_loop_texts.
      cbn [RegexTokenizer.expression]. now rewrite List.map_map.
    - unfold finditer. rewrite scan_single_plus_join by lia. reflexivity. }
  split; [apply (H is_word) | apply (H not_blank)].
Qed.

(** ** The comma-separated analyzer *)

Lemma lstrip_forallb p s : str_forallb p s = true -> str_forallb p (lstrip s) = true.
Proof.
  induction s as [|c s IH]; simpl; [reflexivity|].
  intros H. destruct (is_space c); [|exact H].
  apply andb_true_iff in H. now apply IH.
Qed.

Lemma rstrip_forallb p s : str_forallb p s = true -> str_forallb p (rstrip s) = true.
Proof.
  induction s as [|c s IH]; simpl; [reflexivity|].
  intros H. apply andb_true_iff in H. destruct H as [H1 H2]. specialize (IH H2).
  destruct (rstrip s) as [|c' r].
  - destruct (is_space c); simpl; [reflexivity | now rewrite H1].
  - cbn [str_forallb] in *. now rewrite H1, IH.
Qed.

Lemma lstrip_first_not_space s : first_is_space (lstrip s) = false.
Proof.
  induction s as [|c s IH]; simpl; [reflexivity|].
  destruct (is_space c) eqn:E; [exact IH | simpl; exact E].
Qed.

Lemma rstrip_first s : first_is_space s = false -> first_is_space (rstrip s) = false.
Proof.
  destruct s as [|c s]; simpl; [reflexivity|]. intros E.
  destruct (rstrip s); [rewrite E|]; simpl; exact E.
Qed.

Lemma rstrip_last_not_space s : last_is_space (rstrip s) = false.
Proof.
  induction s as [|c s IH]; simpl; [reflexivity|].
  destruct (rstrip s) as [|c' r].
  - destruct (is_space c) eqn:E; simpl; [reflexivity | exact E].
  - exact IH.
Qed.

Lemma strip_no_outer_space s : outer_space (strip s) = false.
Proof.
  unfold outer_space, strip.
  rewrite rstrip_first by apply lstrip_first_not_space.
  now rewrite rstrip_last_not_space.
Qed.

(** X5. A token of the comma-separated analyzer contains no comma and
    neither begins nor ends with whitespace; there is one token per match
    of the pattern, that is per run of non-comma characters (its text is
    empty when the run is all whitespace), and the analyzer never
    raises. *)
Theorem X5_CommaSeparatedAnalyzer_tokens (value : string) (positions chars : bool)
    (start_pos start_char : Z) :
  let g := CommaSeparatedAnalyzer.call CommaSeparatedAnalyzer.init
             value positions chars start_pos start_char in
  Forall (fun t => exists txt, text t = Some txt
                               /\ str_forallb not_comma txt = true
                               /\ outer_space txt = false) (yielded g)
  /\ length (yielded g)
     = length (finditer CommaSeparatedTokenizer._default_expression value)
  /\ raises g = None.
Proof.
  cbv zeta. unfold CommaSeparatedAnalyzer.call, CommaSeparatedTokenizer.call.
  cbn [CommaSeparatedAnalyzer.tokenizer CommaSeparatedAnalyzer.init
       CommaSeparatedTokenizer.init RegexTokenizer.expression default].
  split; [|apply match_loop_length].
  apply Forall_lookup. intros i t Ht.
  apply match_loop_lookup in Ht. destruct Ht as (m & Hm & Ht & _).
  pose proof (finditer_groups CommaSeparatedTokenizer._default_expression value) as Hg.
  rewrite Forall_lookup in Hg. destruct (Hg i m Hm) as [H1 _].
  exists (strip (m_group m)). split; [exact Ht|]. split; [|apply strip_no_outer_space].
  unfold strip. apply rstrip_forallb, lstrip_forallb.
  apply (str_forallb_impl (re_class CommaSeparatedTokenizer._default_expression));
    [|exact H1].
  intros c. unfold CommaSeparatedTokenizer._default_expression.
  now rewrite re_class_single.
Qed.

(** ** The identity analyzer *)

Lemma strip_length_le s : (String.length (strip s) <= String.length s)%nat.
Proof.
  unfold strip. pose proof (lstrip_length_le s). pose proof (rstrip_length_le (lstrip s)). lia.
Qed.

(** X6. The identity analyzer yields exactly one token, also for the empty
    string, then stops.  Its [text] and [original] are the input, stripped
    when the analyzer strips: the text then neither begins nor ends with
    whitespace.  Its [pos] is [start_pos + 1], and its span starts at
    [start_char] and has the length of the text, so the offsets are
    relative to the stripped value. *)
Theorem X6_IDAnalyzer_single_token (self : IDAnalyzer.t) (value : string)
    (positions chars : bool) (start_pos start_char : Z) :
  exists t txt,
    IDAnalyzer.call self value positions chars start_pos start_char = Yield t Stop
    /\ text t = Some txt /\ original t = Some txt
    /\ (if IDAnalyzer.strip self
        then txt = strip value /\ outer_space txt = false /\ len txt <= len value
        else txt = value)
    /\ (if positions then pos t = Some (start_pos + 1) else pos t = None)
    /\ (if chars
        then startchar t = Some start_char /\ endchar t = Some (start_char + len txt)
        else startchar t = None /\ endchar t = None).
Proof.
  unfold IDAnalyzer.call, IDTokenizer.
  eexists. exists (IDAnalyzer.stripped (IDAnalyzer.strip self) value).
  split; [reflexivity|].
  split; [destruct chars, positions; reflexivity|].
  split; [destruct chars, positions; reflexivity|].
  split.
  - unfold IDAnalyzer.stripped. destruct (IDAnalyzer.strip self); [|reflexivity].
    split; [reflexivity|]. split; [apply strip_no_outer_space|].
    unfold len. pose proof (strip_length_le value). lia.
  - split; destruct chars, positions; simpl; try split; reflexivity.
Qed.

(** ** The n-gram tokenizer: how many grams *)


Lemma xrange_lookup lo hi i x :
  xrange lo hi !! i = Some x -> x = lo + Z.of_nat i /\ x < hi.
Proof.
  unfold xrange. intros H. rewrite list_lookup_fmap in H.
  destruct (seq 0 (Z.to_nat (hi - lo)) !! i) as [k|] eqn:E; [|discriminate].
  simpl in H. revert H. intros [= <-].
  apply lookup_seq in E. destruct E as [-> Hlt]. simpl. lia.
Qed.


(** X7. On an input that is not longer than the minimum size the n-gram
    tokenizer yields nothing and does not raise; this includes the input
    of exactly the minimum size. *)
Theorem X7_NgramTokenizer_short_input (self : NgramTokenizer.t) (value : string)
    (positions chars : bool) (start_pos start_char : Z)
    (Hshort : len value <= NgramTokenizer.min self) :
  NgramTokenizer.call self value positions chars start_pos start_char = Stop.
Proof.
  unfold NgramTokenizer.call. rewrite xrange_empty by lia. reflexivity.
Qed.

Lemma X7_NgramTokenizer_short_input_witness :
  len "abc" <= NgramTokenizer.min (NgramTokenizer.init 3 (Some 4))
  /\ NgramTokenizer.call (NgramTokenizer.init 3 (Some 4)) "abc" true true 0 0 = Stop.
Proof.
  assert (H : len "abc" <= NgramTokenizer.min (NgramTokenizer.init 3 (Some 4)))
    by (vm_compute; discriminate).
  split; [exact H|].
  exact (X7_NgramTokenizer_short_input _ "abc" true true 0 0 H).
Defined.

Section NgramSingleSize.
Variable self : NgramTokenizer.t.
Variables start_char inlen : Z.
Hypothesis one_size : NgramTokenizer.max self = NgramTokenizer.min self.

End NgramSingleSize.



(** ** The n-gram filter *)

Lemma substring_length a : forall s n,
  (a + n <= String.length s)%nat -> String.length (substring a n s) = n.
Proof.
  induction a as [|a IH]; intros s n H; [now apply substring_0_length|].
  destruct s as [|c s]; simpl in *; [lia | apply IH; lia].
Qed.

Lemma py_slice_gram txt start size :
  0 <= start -> 0 <= size -> start + size <= len txt ->
  py_slice txt start (start + size)
  = substring (Z.to_nat start) (Z.to_nat size) txt
  /\ (Z.to_nat start + Z.to_nat size <= String.length txt)%nat.
Proof.
  intros H1 H2 H3. unfold len in H3. split; [|lia].
  rewrite <- (Z2Nat.id start) at 1 by lia.
  rewrite <- (Z2Nat.id (start + size)) by lia.
  rewrite py_slice_nat by lia. f_equal. lia.
Qed.

Section NgramFilterFacts.
Variable self : NgramFilter.t.
Variable txt : string.
Variable chars : bool.
Variable start0 : Z.
Variable t0 : Token.
Hypothesis min_nonneg : 0 <= NgramFilter.min self.

Lemma NgramFilter_sizes_loop_grams start sizes : forall t,
  0 <= start ->
  Forall (fun size => NgramFilter.min self <= size <= NgramFilter.max self) sizes ->
  same_position t0 t ->
  Forall (fun u => same_position t0 u
                   /\ exists g, text u = Some g
                                /\ gram_of txt (NgramFilter.min self) (NgramFilter.max self) g)
    (fst (NgramFilter.sizes_loop txt chars start0 start t sizes))
  /\ same_position t0 (snd (NgramFilter.sizes_loop txt chars start0 start t sizes)).
Proof.
  induction sizes as [|size sizes IH]; intros t Hstart Hsizes Ht; simpl.
  - split; [constructor | exact Ht].
  - inversion Hsizes as [|x l Hsize Hsizes']; subst.
    destruct (Z.gtb_spec (start + size) (len txt)) as [Hgt|Hle]; [now apply IH|].
    match goal with |- context [NgramFilter.sizes_loop _ _ _ _ ?u sizes] =>
      assert (Hu : same_position t0 u
                   /\ text u = Some (py_slice txt start (start + size)));
      [| specialize (IH u Hstart Hsizes' (proj1 Hu));
         destruct (NgramFilter.sizes_loop txt chars start0 start u sizes) as [ys t'] ] end.
    { unfold same_position, when in *. destruct chars; simpl; tauto. }
    simpl in *. destruct IH as [IH1 IH2]. split; [|exact IH2].
    constructor; [|exact IH1]. split; [exact (proj1 Hu)|].
    exists (py_slice txt start (start + size)). split; [exact (proj2 Hu)|].
    destruct (py_slice_gram txt start size) as [E Hb]; [lia | lia | lia |].
    exists (Z.to_nat start), (Z.to_nat size). rewrite E.
    split; [reflexivity|]. split; [exact Hb|].
    split; [now apply substring_length | lia].
Qed.

Lemma NgramFilter_starts_loop_grams starts : forall t,
  Forall (fun start => 0 <= start) starts ->
  same_position t0 t ->
  Forall (fun u => same_position t0 u
                   /\ exists g, text u = Some g
                                /\ gram_of txt (NgramFilter.min self) (NgramFilter.max self) g)
    (NgramFilter.starts_loop self txt chars start0 t starts).
Proof.
  induction starts as [|start starts IH]; intros t Hs Ht; simpl; [constructor|].
  inversion Hs as [|x l Hstart Hs']; subst.
  assert (Hsizes : Forall (fun size => NgramFilter.min self <= size <= NgramFilter.max self)
                     (xrange (NgramFilter.min self) (NgramFilter.max self + 1))).
  { apply Forall_lookup. intros i x Hx. apply xrange_lookup in Hx. lia. }
  pose proof (NgramFilter_sizes_loop_grams start _ t Hstart Hsizes Ht) as [H1 H2].
  destruct (NgramFilter.sizes_loop txt chars start0 start t _) as [ys t'].
  simpl in *. apply Forall_app. split; [exact H1 | now apply IH].
Qed.
End NgramFilterFacts.

(** The texts of the grams, in the order in which they are yielded. *)
Lemma NgramFilter_sizes_loop_texts txt chars start0 start sizes : forall t,
  List.map text (fst (NgramFilter.sizes_loop txt chars start0 start t sizes))
  = List.map (fun size => Some (py_slice txt start (start + size)))
      (List.filter (fun size => negb (start + size >? len txt)) sizes).
Proof.
  induction sizes as [|size sizes IH]; intros t; simpl; [reflexivity|].
  destruct (start + size >? len txt); simpl; [apply IH|].
  match goal with |- context [NgramFilter.sizes_loop _ _ _ _ ?u sizes] =>
    specialize (IH u);
    destruct (NgramFilter.sizes_loop txt chars start0 start u sizes) as [ys t'] end.
  simpl in *. f_equal; [|exact IH].
  unfold when. destruct chars; reflexivity.
Qed.

Lemma NgramFilter_starts_loop_texts self txt chars start0 starts : forall t,
  List.map text (NgramFilter.starts_loop self txt chars start0 t starts)
  = List.map Some
      (flat_map (fun start =>
                   List.map (fun size => py_slice txt start (start + size))
                     (List.filter (fun size => negb (start + size >? len txt))
                        (xrange (NgramFilter.min self) (NgramFilter.max self + 1))))
         starts).
Proof.
  induction starts as [|start starts IH]; intros t; simpl; [reflexivity|].
  pose proof (NgramFilter_sizes_loop_texts txt chars start0 start
                (xrange (NgramFilter.min self) (NgramFilter.max self + 1)) t) as H.
  destruct (NgramFilter.sizes_loop txt chars start0 start t _) as [ys t'].
  simpl in H. rewrite !List.map_app, H, IH, List.map_map. reflexivity.
Qed.

(** A text longer than the minimum size has a gram: its first [lo]
    characters come first. *)
Lemma gram_texts_first lo hi txt :
  0 <= lo -> lo <= hi -> lo < len txt ->
  exists more, gram_texts lo hi txt = substring 0 (Z.to_nat lo) txt :: more.
Proof.
  intros H0 Hle Hlt. unfold gram_texts.
  destruct (xrange_cons 0 (len txt - lo)) as [starts ->]; [lia|].
  destruct (xrange_cons lo (hi + 1)) as [sizes ->]; [lia|].
  cbn [flat_map List.filter].
  destruct (Z.gtb_spec (0 + lo) (len txt)) as [Hgt|_]; [lia|].
  cbn [negb List.map app].
  destruct (py_slice_gram txt 0 lo) as [E _]; [lia | lia | lia |].
  rewrite E. simpl. eexists. reflexivity.
Qed.

(** X9. For an incoming token with text [txt], the n-gram filter (with a
    non-negative minimum size) yields, in place of the token, one token
    for each gram of [txt]: start offset by start offset from [0] up to
    (not including) [len txt - min], and for each start the sizes from the
    minimum to the maximum that stay within [txt], with the substring as
    its text.  Each of them has the [original], [pos] and [stopped] of the
    incoming token and a text that is a substring of [txt] of a length
    between the minimum and the maximum size.  Nothing is yielded for a
    text that is not longer than the minimum size; for a longer text (and
    a maximum at or above the minimum) the first gram is the first [min]
    characters of [txt].  The filter then goes on with the rest of the
    stream. *)
Theorem X9_NgramFilter_grams (self : NgramFilter.t) (t : Token) (rest : gen Token)
    (txt : string)
    (Htext : text t = Some txt)
    (Hstart : chars t = true -> exists s, startchar t = Some s)
    (Hmin : 0 <= NgramFilter.min self) :
  exists grams,
    NgramFilter.call self (Yield t rest) = gen_app grams (NgramFilter.call self rest)
    /\ List.map text grams
       = List.map Some (gram_texts (NgramFilter.min self) (NgramFilter.max self) txt)
    /\ Forall (fun u => same_position t u
                        /\ exists g, text u = Some g
                             /\ gram_of txt (NgramFilter.min self) (NgramFilter.max self) g)
         grams
    /\ (len txt <= NgramFilter.min self -> grams = [])
    /\ (NgramFilter.min self <= NgramFilter.max self -> NgramFilter.min self < len txt ->
        exists g more,
          grams = g :: more
          /\ text g = Some (substring 0 (Z.to_nat (NgramFilter.min self)) txt)).
Proof.
  assert (Ho : exists o, (if chars t then startchar t else Some 0) = Some o).
  { destruct (chars t); [now apply Hstart | now exists 0]. }
  destruct Ho as [o Ho].
  assert (Htexts : List.map text (NgramFilter.starts_loop self txt (chars t) o t
                                    (xrange 0 (len txt - NgramFilter.min self)))
                   = List.map Some
                       (gram_texts (NgramFilter.min self) (NgramFilter.max self) txt))
    by apply NgramFilter_starts_loop_texts.
  exists (NgramFilter.starts_loop self txt (chars t) o t
            (xrange 0 (len txt - NgramFilter.min self))).
  split; [simpl; now rewrite Htext, Ho|]. split; [exact Htexts|]. split; [|split].
  - apply NgramFilter_starts_loop_grams; [exact Hmin | | repeat split].
    apply Forall_lookup. intros i x Hx. apply xrange_lookup in Hx. lia.
  - intros Hshort. now rewrite xrange_empty by lia.
  - intros Hle Hlong.
    destruct (gram_texts_first _ _ txt Hmin Hle Hlong) as [more Hmore].
    rewrite Hmore in Htexts.
    destruct (NgramFilter.starts_loop self txt (chars t) o t _) as [|g grams];
      [discriminate|].
    simpl in Htexts. revert Htexts. intros [= Hg _].
    exists g, grams. split; [reflexivity | exact Hg].
Qed.

Lemma X9_NgramFilter_grams_witness :
  text camel_word = Some "getProcessedToken"
  /\ (chars camel_word = true -> exists s, startchar camel_word = Some s)
  /\ 0 <= NgramFilter.min (NgramFilter.init 3 (Some 4))
  /\ exists grams,
       NgramFilter.call (NgramFilter.init 3 (Some 4)) (Yield camel_word Stop)
       = gen_app grams (NgramFilter.call (NgramFilter.init 3 (Some 4)) Stop)
       /\ List.map text grams
          = List.map Some
              (gram_texts (NgramFilter.min (NgramFilter.init 3 (Some 4)))
                 (NgramFilter.max (NgramFilter.init 3 (Some 4))) "getProcessedToken").
Proof.
  assert (H1 : text camel_word = Some "getProcessedToken") by reflexivity.
  assert (H2 : chars camel_word = true -> exists s, startchar camel_word = Some s)
    by (intros _; exists 0; reflexivity).
  assert (H3 : 0 <= NgramFilter.min (NgramFilter.init 3 (Some 4))) by (simpl; lia).
  split; [exact H1|]. split; [exact H2|]. split; [exact H3|].
  destruct (X9_NgramFilter_grams (NgramFilter.init 3 (Some 4)) camel_word Stop _ H1 H2 H3)
    as (grams & E & Ht & _).
  exists grams. split; [exact E | exact Ht].
Defined.

Example gram_texts_hello :
  gram_texts 3 4 "hello" = ["hel"; "hell"; "ell"; "ello"].
Proof. vm_compute. reflexivity. Qed.

(** ** The stem filter: the cache is transparent *)

Lemma StemFilter_loop_spec stem ignores l : forall cache,
  cache_sound stem cache ->
  Forall stemmable l ->
  List.map item_string (yielded (fst (StemFilter.loop stem ignores cache (gen_of_list l))))
  = List.map (stemmed stem ignores) l
  /\ raises (fst (StemFilter.loop stem ignores cache (gen_of_list l))) = None
  /\ cache_sound stem (snd (StemFilter.loop stem ignores cache (gen_of_list l)))
  /\ cache ⊆ snd (StemFilter.loop stem ignores cache (gen_of_list l))
  /\ forall t txt, t ∈ l -> stopped t = false -> text t = Some txt -> txt ∉ ignores ->
       snd (StemFilter.loop stem ignores cache (gen_of_list l)) !! txt = Some (stem txt).
Proof.
  induction l as [|t l IH]; intros cache Hsound Hl.
  - simpl. repeat split; try reflexivity; try assumption.
    intros t txt Hin. inversion Hin.
  - inversion Hl as [|x l' Ht Hl']; subst.
    cbn [gen_of_list StemFilter.loop]. unfold stemmed at 1. cbn [List.map].
    destruct (stopped t) eqn:Es.
    { destruct (IH cache Hsound Hl') as (H1 & H2 & H3 & H4 & H5).
      destruct (StemFilter.loop stem ignores cache (gen_of_list l)) as [g c].
      simpl in *. rewrite H1. repeat split; try assumption.
      intros u txt Hin Hu. apply elem_of_cons in Hin.
      destruct Hin as [-> | Hin]; [congruence | now eapply H5; eauto]. }
    destruct Ht as [Ht | [txt0 Ht]]; [congruence|]. rewrite Ht.
    destruct (decide (txt0 ∈ ignores)) as [Hig|Hig].
    { destruct (IH cache Hsound Hl') as (H1 & H2 & H3 & H4 & H5).
      destruct (StemFilter.loop stem ignores cache (gen_of_list l)) as [g c].
      simpl in *. rewrite Ht, H1. repeat split; try assumption.
      intros u txt Hin Hu Htu Hni. apply elem_of_cons in Hin.
      destruct Hin as [-> | Hin]; [congruence | now eapply H5; eauto]. }
    destruct (cache !! txt0) as [s|] eqn:Ec.
    { destruct (IH cache Hsound Hl') as (H1 & H2 & H3 & H4 & H5).
      destruct (StemFilter.loop stem ignores cache (gen_of_list l)) as [g c].
      simpl in *. rewrite H1, (Hsound _ _ Ec). repeat split; try assumption.
      intros u txt Hin Hu Htu Hni. apply elem_of_cons in Hin.
      destruct Hin as [-> | Hin]; [|now eapply H5; eauto].
      assert (txt = txt0) by congruence. subst txt.
      rewrite <- (Hsound _ _ Ec). eapply lookup_weaken; [exact Ec | exact H4]. }
    assert (Hsound' : cache_sound stem (<[txt0 := stem txt0]> cache)).
    { intros k v Hk. destruct (decide (txt0 = k)) as [->|Hne].
      - rewrite lookup_insert_eq in Hk. congruence.
      - rewrite lookup_insert_ne in Hk by exact Hne. now apply Hsound. }
    destruct (IH _ Hsound' Hl') as (H1 & H2 & H3 & H4 & H5).
    destruct (StemFilter.loop stem ignores (<[txt0 := stem txt0]> cache) (gen_of_list l))
      as [g c].
    simpl in *. rewrite H1. repeat split; try assumption.
    + etransitivity; [|exact H4]. now apply insert_subseteq.
    + intros u txt Hin Hu Htu Hni. apply elem_of_cons in Hin.
      destruct Hin as [-> | Hin]; [|now eapply H5; eauto].
      assert (txt = txt0) by congruence. subst txt.
      eapply lookup_weaken; [apply lookup_insert_eq | exact H4].
Qed.

(** X10. The cache of the stem filter does not show in what it yields: as
    long as the cache maps words to their stems (as the empty cache does),
    the string carried by each item of the output (the text of the token,
    or the string yielded on a cache miss) is the text of a stopped token
    or of an ignored word, and the stem of the text otherwise, whether the
    word was in the cache or not; the filter yields one item per token and
    does not raise on tokens that are stopped or carry a text. *)
Theorem X10_StemFilter_cache_transparent (stem : string -> string) (self : StemFilter.t)
    (l : list Token)
    (Hsound : cache_sound stem (StemFilter.cache self))
    (Hl : Forall stemmable l) :
  List.map item_string (yielded (fst (StemFilter.call stem self (gen_of_list l))))
  = List.map (stemmed stem (StemFilter.ignores self)) l
  /\ raises (fst (StemFilter.call stem self (gen_of_list l))) = None.
Proof.
  destruct (StemFilter_loop_spec stem (StemFilter.ignores self) l _ Hsound Hl)
    as (H1 & H2 & _).
  unfold StemFilter.call.
  destruct (StemFilter.loop stem (StemFilter.ignores self) (StemFilter.cache self)
              (gen_of_list l)) as [g c].
  simpl in *. split; assumption.
Qed.

Lemma cache_sound_empty stem : cache_sound stem ∅.
Proof. intros k v H. rewrite lookup_empty in H. discriminate. Qed.

Lemma X10_StemFilter_cache_transparent_witness :
  cache_sound lower (StemFilter.cache (StemFilter.init None))
  /\ Forall stemmable [word "Running"; word "Running"]
  /\ List.map item_string
       (yielded (fst (StemFilter.call lower (StemFilter.init None)
                        (gen_of_list [word "Running"; word "Running"]))))
     = List.map (stemmed lower (StemFilter.ignores (StemFilter.init None)))
         [word "Running"; word "Running"].
Proof.
  assert (H1 : cache_sound lower (StemFilter.cache (StemFilter.init None)))
    by apply cache_sound_empty.
  assert (H2 : Forall stemmable [word "Running"; word "Running"])
    by (repeat (constructor 2; [right; eexists; reflexivity|]); constructor 1).
  split; [exact H1|]. split; [exact H2|].
  exact (proj1 (X10_StemFilter_cache_transparent lower (StemFilter.init None) _ H1 H2)).
Defined.

(** X11. A call of the stem filter keeps the cache sound and only adds to
    it: every entry is still there afterwards, every entry maps a word to
    its stem, and every word the filter had to stem (the text of a token
    that is neither stopped nor ignored) is in the cache afterwards.  The
    cache of a new filter, and of a cleared one, is empty, hence sound. *)
Theorem X11_StemFilter_cache_invariant (stem : string -> string) (self : StemFilter.t)
    (l : list Token)
    (Hsound : cache_sound stem (StemFilter.cache self))
    (Hl : Forall stemmable l) :
  let self' := snd (StemFilter.call stem self (gen_of_list l)) in
  cache_sound stem (StemFilter.cache self')
  /\ StemFilter.cache self ⊆ StemFilter.cache self'
  /\ StemFilter.ignores self' = StemFilter.ignores self
  /\ (forall t txt, t ∈ l -> stopped t = false -> text t = Some txt ->
        txt ∉ StemFilter.ignores self ->
        StemFilter.cache self' !! txt = Some (stem txt))
  /\ (forall ignore, StemFilter.cache (StemFilter.init ignore) = ∅)
  /\ StemFilter.cache (StemFilter.clear self') = ∅
  /\ StemFilter.ignores (StemFilter.clear self') = StemFilter.ignores self.
Proof.
  destruct (StemFilter_loop_spec stem (StemFilter.ignores self) l _ Hsound Hl)
    as (_ & _ & H3 & H4 & H5).
  cbv zeta. unfold StemFilter.call.
  destruct (StemFilter.loop stem (StemFilter.ignores self) (StemFilter.cache self)
              (gen_of_list l)) as [g c].
  simpl in *. repeat split; try assumption; try reflexivity.
Qed.

Lemma X11_StemFilter_cache_invariant_witness :
  cache_sound lower (StemFilter.cache (StemFilter.init None))
  /\ Forall stemmable [word "Running"]
  /\ StemFilter.cache (snd (StemFilter.call lower (StemFilter.init None)
                              (gen_of_list [word "Running"]))) !! "Running"
     = Some (lower "Running").
Proof.
  assert (H1 : cache_sound lower (StemFilter.cache (StemFilter.init None)))
    by apply cache_sound_empty.
  assert (H2 : Forall stemmable [word "Running"])
    by (repeat (constructor 2; [right; eexists; reflexivity|]); constructor 1).
  split; [exact H1|]. split; [exact H2|].
  destruct (X11_StemFilter_cache_invariant lower (StemFilter.init None) _ H1 H2)
    as (_ & _ & _ & H & _).
  apply (H (word "Running")); [apply list_elem_of_here | reflexivity | reflexivity |].
  simpl. apply not_elem_of_empty.
Defined.

(** ** The camel-case and underscore filters: the sub-words *)

Lemma re_class_camel c : re_class _camel_exp c = is_alnum c.
Proof.
  unfold re_class, _camel_exp, is_alnum, is_alpha. simpl.
  destruct (is_upper c), (is_lower c), (is_digit c); reflexivity.
Qed.

Lemma sub_tokens_are_sub_words (t : Token) (txt : string) :
  (chars t = true -> exists s, startchar t = Some s) ->
  Forall (sub_word t txt)
    (List.map (sub_token t) (List.filter (differs txt) (finditer _camel_exp txt))).
Proof.
  intros Hstart.
  destruct (finditer_spec _camel_exp txt) as [_ Hin].
  pose proof (finditer_groups _camel_exp txt) as Hg.
  induction (finditer _camel_exp txt) as [|m ms IH]; simpl; [constructor|].
  inversion Hin as [|x l (Hb & Hgrp & Hlen) Hin']; subst.
  inversion Hg as [|x l [Hcls Hne] Hg']; subst.
  specialize (IH Hin' Hg').
  destruct (differs txt m) eqn:Ed; [|exact IH].
  simpl. constructor; [|exact IH].
  unfold differs in Ed. apply negb_true_iff, String.eqb_neq in Ed.
  assert (Hmeta : same_position t (sub_token t m)).
  { unfold sub_token, same_position. destruct (chars t), (startchar t); simpl; tauto. }
  split; [exact Hmeta|]. exists (m_group m).
  split; [unfold sub_token; destruct (chars t), (startchar t); reflexivity|].
  split; [now apply Hne|]. split; [exact Ed|]. split.
  - apply (str_forallb_impl (re_class _camel_exp)); [|exact Hcls].
    intros c. now rewrite re_class_camel.
  - intros Hc. destruct (Hstart Hc) as [s Hs].
    exists s, (m_start m), (m_end m). unfold sub_token. rewrite Hc, Hs.
    split; [reflexivity|]. split; [reflexivity|]. split; [reflexivity|].
    rewrite py_slice_nat by exact Hb. now rewrite Hgrp.
Qed.

Lemma camel_loop_sub_tokens (t : Token) (txt : string) (o : Z) ms :
  (if chars t then startchar t else Some 0) = Some o ->
  camel_loop txt (chars t) o t ms
  = List.map (sub_token t) (List.filter (differs txt) ms).
Proof.
  intros Ho. rewrite (camel_loop_map txt (chars t) o ms t t) by reflexivity.
  apply map_ext. intros m. now apply camel_step_sub_token.
Qed.

(** ** The lowercase and stop filters on any stream *)

Lemma lower_char_not_upper c : is_upper (lower_char c) = false.
Proof. destruct c as [[] [] [] [] [] [] [] []]; reflexivity. Qed.

Lemma lower_char_word c : is_word c = true -> is_word (lower_char c) = true.
Proof. destruct c as [[] [] [] [] [] [] [] []]; intros H; try reflexivity; discriminate H. Qed.

Lemma lower_no_upper s : str_existsb is_upper (lower s) = false.
Proof.
  induction s as [|c s IH]; simpl; [reflexivity|].
  now rewrite lower_char_not_upper, IH.
Qed.

Lemma lower_length s : String.length (lower s) = String.length s.
Proof. induction s as [|c s IH]; simpl; [reflexivity | now rewrite IH]. Qed.

Lemma lower_word s : str_forallb is_word s = true -> str_forallb is_word (lower s) = true.
Proof.
  induction s as [|c s IH]; simpl; [reflexivity|].
  intros H. apply andb_true_iff in H. destruct H as [H1 H2].
  now rewrite (lower_char_word c H1), IH.
Qed.

Lemma LowerCaseFilter_elem g u :
  u ∈ yielded (LowerCaseFilter g) ->
  exists t txt, t ∈ yielded g /\ text t = Some txt /\ u = set_text (lower txt) t.
Proof.
  induction g as [| e | t rest IH]; simpl;
    [intros H; inversion H | intros H; inversion H |].
  destruct (text t) as [txt|] eqn:E; simpl; [|intros H; inversion H].
  intros H. apply elem_of_cons in H. destruct H as [-> | H].
  - exists t, txt. split; [apply list_elem_of_here|]. split; [exact E | reflexivity].
  - destruct (IH H) as (t' & txt' & H1 & H2 & H3).
    exists t', txt'. split; [now apply list_elem_of_further|]. split; assumption.
Qed.

Lemma LowerCaseFilter_no_raise g :
  raises g = None ->
  Forall (fun t => exists txt, text t = Some txt) (yielded g) ->
  raises (LowerCaseFilter g) = None
  /\ length (yielded (LowerCaseFilter g)) = length (yielded g).
Proof.
  induction g as [| e | t rest IH]; simpl; [split; reflexivity | discriminate |].
  intros Hr Hall. inversion Hall as [|x l [txt Ht] Hall']; subst.
  rewrite Ht. simpl. destruct (IH Hr Hall') as [H1 H2]. split; [exact H1 | now rewrite H2].
Qed.

(** X14. Whatever the incoming stream, every token the lowercase filter
    yields is an incoming token whose text was replaced by its lowercase
    form: the text holds no upper-case ASCII letter and has the length it
    had, and [original], [pos], [startchar] and [endchar] are untouched.
    On a stream that does not raise and whose tokens all carry a text the
    filter yields as many tokens as it receives and does not raise. *)
Theorem X14_LowerCaseFilter_tokens (g : gen Token) :
  Forall (fun u => exists t txt,
            t ∈ yielded g /\ text t = Some txt
            /\ text u = Some (lower txt)
            /\ str_existsb is_upper (lower txt) = false
            /\ len (lower txt) = len txt
            /\ original u = original t /\ pos u = pos t
            /\ startchar u = startchar t /\ endchar u = endchar t)
    (yielded (LowerCaseFilter g))
  /\ (raises g = None ->
      Forall (fun t => exists txt, text t = Some txt) (yielded g) ->
      raises (LowerCaseFilter g) = None
      /\ length (yielded (LowerCaseFilter g)) = length (yielded g)).
Proof.
  split; [|apply LowerCaseFilter_no_raise].
  apply Forall_forall. intros u Hu.
  destruct (LowerCaseFilter_elem g u Hu) as (t & txt & H1 & H2 & ->).
  exists t, txt. split; [exact H1|]. split; [exact H2|]. split; [reflexivity|].
  split; [apply lower_no_upper|]. split; [unfold len; now rewrite lower_length|].
  repeat split; reflexivity.
Qed.

Lemma X14_LowerCaseFilter_tokens_witness :
  raises (gen_of_list [word "AbC"]) = None
  /\ Forall (fun t => exists txt, text t = Some txt) (yielded (gen_of_list [word "AbC"]))
  /\ raises (LowerCaseFilter (gen_of_list [word "AbC"])) = None
  /\ length (yielded (LowerCaseFilter (gen_of_list [word "AbC"])))
     = length (yielded (gen_of_list [word "AbC"])).
Proof.
  assert (H1 : raises (gen_of_list [word "AbC"]) = None) by reflexivity.
  assert (H2 : Forall (fun t => exists txt, text t = Some txt)
                 (yielded (gen_of_list [word "AbC"])))
    by (constructor 2; [eexists; reflexivity | constructor 1]).
  split; [exact H1|]. split; [exact H2|].
  exact (proj2 (X14_LowerCaseFilter_tokens (gen_of_list [word "AbC"])) H1 H2).
Defined.

Lemma StopFilter_elem self g u :
  u ∈ yielded (StopFilter.call self g) ->
  u ∈ yielded g /\ exists txt, text u = Some txt /\ StopFilter.keeps self txt = true.
Proof.
  induction g as [| e | t rest IH]; simpl;
    [intros H; inversion H | intros H; inversion H |].
  destruct (text t) as [txt|] eqn:E; [|intros H; inversion H].
  destruct (StopFilter.keeps self txt) eqn:Ek; simpl.
  - intros H. apply elem_of_cons in H. destruct H as [-> | H].
    + split; [apply list_elem_of_here|]. exists txt. split; assumption.
    + destruct (IH H) as [H1 H2]. split; [now apply list_elem_of_further | exact H2].
  - intros H. destruct (IH H) as [H1 H2]. split; [now apply list_elem_of_further | exact H2].
Qed.

Lemma StopFilter_no_raise self g :
  raises g = None ->
  Forall (fun t => exists txt, text t = Some txt) (yielded g) ->
  raises (StopFilter.call self g) = None.
Proof.
  induction g as [| e | t rest IH]; simpl; [reflexivity | discriminate |].
  intros Hr Hall. inversion Hall as [|x l [txt Ht] Hall']; subst.
  rewrite Ht. destruct (StopFilter.keeps self txt); simpl; now apply IH.
Qed.

Lemma StopFilter_idem self g :
  StopFilter.call self (StopFilter.call self g) = StopFilter.call self g.
Proof.
  induction g as [| e | t rest IH]; simpl; try reflexivity.
  destruct (text t) as [txt|] eqn:E; [|reflexivity].
  destruct (StopFilter.keeps self txt) eqn:Ek; [|exact IH].
  simpl. now rewrite E, Ek, IH.
Qed.

Lemma keeps_spec self txt :
  StopFilter.keeps self txt = true ->
  StopFilter.min self <= len txt /\ txt ∉ StopFilter.stops self.
Proof.
  unfold StopFilter.keeps. intros H. apply andb_true_iff in H. destruct H as [H1 H2].
  apply Z.geb_le in H1. apply bool_decide_eq_true_1 in H2. split; [lia | exact H2].
Qed.

(** X15. The stop filter is idempotent on every stream, raising ones
    included, and whatever comes in, each token it yields is one of the
    incoming tokens, unchanged, whose text has at least the minimum length
    and is not in the word set. *)
Theorem X15_StopFilter_idempotent (self : StopFilter.t) (g : gen Token) :
  StopFilter.call self (StopFilter.call self g) = StopFilter.call self g
  /\ Forall (fun u => u ∈ yielded g
                      /\ exists txt, text u = Some txt
                           /\ StopFilter.min self <= len txt
                           /\ txt ∉ StopFilter.stops self)
       (yielded (StopFilter.call self g)).
Proof.
  split; [apply StopFilter_idem|].
  apply Forall_forall. intros u Hu.
  destruct (StopFilter_elem self g u Hu) as (H1 & txt & H2 & H3).
  split; [exact H1|]. exists txt. split; [exact H2 | now apply keeps_spec].
Qed.

(** ** The analyzers *)

Lemma lower_match_loop positions chars start_pos start_char ms : forall t i,
  let g := LowerCaseFilter
             (match_loop (fun s => s) positions chars start_pos start_char t i ms) in
  texts g = List.map (fun m => Some (lower (m_group m))) ms
  /\ List.map original (yielded g) = List.map (fun m => Some (m_group m)) ms
  /\ raises g = None.
Proof.
  cbv zeta. unfold texts.
  induction ms as [|m ms IH]; intros t i; [repeat split; reflexivity|].
  cbn [match_loop LowerCaseFilter].
  match goal with |- context [match_loop _ _ _ _ _ ?u (S i) ms] =>
    destruct (IH u (S i)) as (H1 & H2 & H3);
    assert (Hu : text u = Some (m_group m) /\ original u = Some (m_group m))
      by (unfold when; destruct chars, positions; split; reflexivity) end.
  destruct Hu as [Hut Huo]. rewrite Hut. cbn [yielded raises List.map].
  rewrite H1, H2. split; [reflexivity|]. split; [|exact H3].
  f_equal. exact Huo.
Qed.

(** X16. The simple analyzer never raises and yields one token per word of
    the input, in order: its [text] is the word in lower case while its
    [original] keeps the word as it is in the input. *)
Theorem X16_SimpleAnalyzer_words (value : string) (positions chars : bool)
    (start_pos start_char : Z) :
  let g := SimpleAnalyzer.call SimpleAnalyzer.init value positions chars
             start_pos start_char in
  let words := List.map m_group (finditer RegexTokenizer._default_expression value) in
  texts g = List.map (fun w => Some (lower w)) words
  /\ List.map original (yielded g) = List.map Some words
  /\ raises g = None.
Proof.
  cbv zeta. unfold SimpleAnalyzer.call, RegexTokenizer.call.
  destruct (lower_match_loop positions chars start_pos start_char
              (finditer RegexTokenizer._default_expression value)
              (Token_init positions chars false) 0) as (H1 & H2 & H3).
  rewrite !List.map_map. split; [exact H1|]. split; [exact H2 | exact H3].
Qed.

Lemma RegexTokenizer_no_raise self value positions chars start_pos start_char :
  raises (RegexTokenizer.call self value positions chars start_pos start_char) = None
  /\ Forall (fun t => exists txt, text t = Some txt)
       (yielded (RegexTokenizer.call self value positions chars start_pos start_char)).
Proof.
  unfold RegexTokenizer.call. split; [apply match_loop_length|].
  apply Forall_lookup. intros i t Ht. apply match_loop_lookup in Ht.
  destruct Ht as (m & _ & Ht & _). now exists (m_group m).
Qed.

(** X17. Whatever the word set and the minimum size, the standard analyzer
    with a stop filter never raises, and the text of every token it yields
    is made of word characters, holds no upper-case ASCII letter, is not
    empty, has at least the minimum length and is not in the word set. *)
Theorem X17_StandardAnalyzer_tokens (words : gset string) (minsize : Z) (value : string)
    (positions chars : bool) (start_pos start_char : Z) :
  let g := StandardAnalyzer.call (StandardAnalyzer.init (Some words) minsize)
             value positions chars start_pos start_char in
  raises g = None
  /\ Forall (fun u => exists txt, text u = Some txt
                        /\ txt <> ""
                        /\ str_forallb is_word txt = true
                        /\ str_existsb is_upper txt = false
                        /\ minsize <= len txt
                        /\ txt ∉ words) (yielded g).
Proof.
  cbv zeta. unfold StandardAnalyzer.call.
  cbn [StandardAnalyzer.stopper StandardAnalyzer.tokenizer StandardAnalyzer.init].
  set (tok := RegexTokenizer.call (RegexTokenizer.init None) value positions chars
                start_pos start_char).
  destruct (RegexTokenizer_no_raise (RegexTokenizer.init None) value positions chars
              start_pos start_char) as [Hr Ht]. fold tok in Hr, Ht.
  destruct (LowerCaseFilter_no_raise tok Hr Ht) as [Hlr _].
  split.
  - apply StopFilter_no_raise; [exact Hlr|].
    apply Forall_forall. intros u Hu.
    destruct (LowerCaseFilter_elem tok u Hu) as (t & txt & _ & _ & ->).
    now exists (lower txt).
  - apply Forall_forall. intros u Hu.
    destruct (StopFilter_elem _ _ u Hu) as (Hin & txt' & Htxt' & Hk).
    destruct (LowerCaseFilter_elem tok u Hin) as (t & txt & Htin & Htt & ->).
    simpl in Htxt'. revert Htxt'. intros [= <-].
    pose proof (plus_tokenizer_tokens is_word value positions chars start_pos start_char)
      as Hw.
    rewrite Forall_forall in Hw. destruct (Hw t Htin) as (txt0 & E0 & Hne & Hword).
    assert (txt0 = txt) by congruence. subst txt0.
    apply keeps_spec in Hk. cbn [StopFilter.min StopFilter.stops StopFilter.init default] in Hk.
    exists (lower txt). split; [reflexivity|]. split.
    { intros E. apply Hne. destruct txt; [reflexivity | discriminate E]. }
    split; [now apply lower_word|]. split; [apply lower_no_upper|]. exact Hk.
Qed.

Lemma PassFilter_id (g : gen Token) : PassFilter g = g.
Proof. induction g as [| e | t rest IH]; simpl; [reflexivity | reflexivity | now rewrite IH]. Qed.

(** X18. The pass filter changes nothing, so a standard analyzer built
    with [stoplist = None] is the simple analyzer: it also ignores its
    [minsize] argument, short tokens included. *)
Theorem X18_StandardAnalyzer_without_stoplist (minsize : Z) (value : string)
    (positions chars : bool) (start_pos start_char : Z) :
  (forall g, PassFilter g = g)
  /\ StandardAnalyzer.call (StandardAnalyzer.init None minsize)
       value positions chars start_pos start_char
     = SimpleAnalyzer.call SimpleAnalyzer.init value positions chars start_pos start_char.
Proof.
  split; [apply PassFilter_id|].
  unfold StandardAnalyzer.call, SimpleAnalyzer.call.
  cbn [StandardAnalyzer.stopper StandardAnalyzer.tokenizer StandardAnalyzer.init
       SimpleAnalyzer.tokenizer SimpleAnalyzer.init].
  apply PassFilter_id.
Qed.

Lemma NgramTokenizer_first self value positions chars start_pos start_char :
  NgramTokenizer.min self <= NgramTokenizer.max self ->
  NgramTokenizer.min self < len value ->
  exists t rest,
    NgramTokenizer.call self value positions chars start_pos start_char = Yield t rest.
Proof.
  intros Hmm Hlen. unfold NgramTokenizer.call.
  destruct (xrange_cons 0 (len value - NgramTokenizer.min self)) as [starts ->]; [lia|].
  cbn [NgramTokenizer.starts_loop].
  destruct (xrange_cons (NgramTokenizer.min self) (NgramTokenizer.max self + 1))
    as [sizes ->]; [lia|].
  cbn [NgramTokenizer.sizes_loop].
  destruct (Z.gtb_spec (0 + NgramTokenizer.min self) (len value)) as [Hgt|_]; [lia|].
  match goal with |- context [NgramTokenizer.sizes_loop ?a ?b ?c ?d ?e ?f ?u sizes] =>
    destruct (NgramTokenizer.sizes_loop a b c d e f u sizes) as [ys t'] end.
  cbn [gen_app]. eexists. eexists. reflexivity.
Qed.

(** X19. The n-gram analyzer never yields a token.  Its tokenizer assigns
    no text, so the lowercase filter raises [AttributeError] on the first
    token it receives: the analyzer raises as soon as the tokenizer has a
    gram to yield (the minimum size is at most the maximum and less than
    the length of the input), and otherwise just stops. *)
Theorem X19_NgramAnalyzer_never_yields (self : NgramAnalyzer.t) (value : string)
    (positions chars : bool) :
  let tk := NgramAnalyzer.tokenizer self in
  let g := NgramAnalyzer.call self value positions chars in
  yielded g = []
  /\ g = if (NgramTokenizer.min tk <=? NgramTokenizer.max tk)
            && (NgramTokenizer.min tk <? len value)
         then Raise AttributeError else Stop.
Proof.
  cbv zeta. unfold NgramAnalyzer.call.
  set (tk := NgramAnalyzer.tokenizer self).
  assert (E : LowerCaseFilter (NgramTokenizer.call tk value positions chars 0 0)
              = if (NgramTokenizer.min tk <=? NgramTokenizer.max tk)
                   && (NgramTokenizer.min tk <? len value)
                then Raise AttributeError else Stop).
  { destruct (Z.leb_spec (NgramTokenizer.min tk) (NgramTokenizer.max tk)) as [Hmm|Hmm];
      destruct (Z.ltb_spec (NgramTokenizer.min tk) (len value)) as [Hl|Hl]; simpl.
    - destruct (NgramTokenizer_first tk value positions chars 0 0 Hmm Hl) as (t & rest & E).
      pose proof (NgramTokenizer_text_never_assigned tk value positions chars 0 0) as Hnone.
      rewrite E in *. simpl in Hnone. inversion Hnone as [|x l [Ht _] _]; subst.
      simpl. now rewrite Ht.
    - unfold NgramTokenizer.call. now rewrite xrange_empty by lia.
    - unfold NgramTokenizer.call. rewrite starts_loop_no_size; [reflexivity|].
      apply xrange_empty. lia.
    - unfold NgramTokenizer.call. now rewrite xrange_empty by lia. }
  rewrite E. split; [|reflexivity].
  destruct ((NgramTokenizer.min tk <=? NgramTokenizer.max tk)
            && (NgramTokenizer.min tk <? len value)); reflexivity.
Qed.

(** ** The fancy analyzer, on the shared token *)

Section SharedToken.
Variables pflag cflag : bool.
Variables start_pos start_char : Z.

Lemma regex_loop_cons st i m ms :
  Shared.regex_loop pflag cflag start_pos start_char st i (m :: ms)
  = Shared.Out (word_token pflag cflag start_pos start_char m i st)
      (Shared.Co (fun st' =>
         Shared.regex_loop pflag cflag start_pos start_char st' (S i) ms)).
Proof. reflexivity. Qed.

Lemma match_loop_cons t i m ms :
  match_loop (fun s => s) pflag cflag start_pos start_char t i (m :: ms)
  = Yield (word_token pflag cflag start_pos start_char m i t)
      (match_loop (fun s => s) pflag cflag start_pos start_char
         (word_token pflag cflag start_pos start_char m i t) (S i) ms).
Proof. reflexivity. Qed.

Lemma word_token_agree m i st t :
  agree cflag st t ->
  word_token pflag cflag start_pos start_char m i st
  = word_token pflag cflag start_pos start_char m i t.
Proof.
  unfold agree, word_token, when.
  destruct st as [p1 c1 b1 o1 x1 ps1 s1 e1 sp1 bt1].
  destruct t as [p2 c2 b2 o2 x2 ps2 s2 e2 sp2 bt2]. simpl.
  intros (-> & -> & -> & -> & -> & -> & H7).
  destruct cflag, pflag; try reflexivity;
    destruct (H7 eq_refl) as [-> ->]; reflexivity.
Qed.

Lemma word_token_fields m i t :
  chars t = cflag ->
  let u := word_token pflag cflag start_pos start_char m i t in
  text u = Some (m_group m) /\ chars u = cflag
  /\ (cflag = true -> exists s, startchar u = Some s)
  /\ agree cflag u u.
Proof.
  intros Hc. unfold word_token, when, agree.
  destruct cflag eqn:Ec, pflag; simpl; rewrite ?Hc;
    repeat split; try reflexivity; try discriminate; intros _; eexists; reflexivity.
Qed.

Lemma agree_set_text x st t : agree cflag st t -> agree cflag (set_text x st) t.
Proof. unfold agree. simpl. tauto. Qed.

Lemma agree_camel_step o m st t :
  agree cflag st t -> agree cflag (camel_step cflag o m st) t.
Proof.
  unfold agree, camel_step, when. intros (H1 & H2 & H3 & H4 & H5 & H6 & H7).
  destruct cflag; simpl; repeat split; try assumption; try discriminate;
    now apply H7.
Qed.

Lemma agree_camel_final txt o ms : forall st t,
  agree cflag st t -> agree cflag (camel_final txt cflag o st ms) t.
Proof.
  induction ms as [|m ms IH]; intros st t H; simpl; [exact H|].
  destruct (negb (m_group m =? txt)%string); apply IH; [|exact H].
  now apply agree_camel_step.
Qed.
End SharedToken.

Lemma camel_step_text c o m st : text (camel_step c o m st) = Some (m_group m).
Proof. unfold camel_step, when. destruct c; reflexivity. Qed.

Lemma split_subs_cons txt c o next m ms st :
  Shared.split_subs txt c o next (m :: ms) st
  = if negb (String.eqb (m_group m) txt)
    then Shared.Out (camel_step c o m st)
           (Shared.Co (Shared.split_subs txt c o next ms))
    else Shared.split_subs txt c o next ms st.
Proof. reflexivity. Qed.

Lemma camel_loop_cons txt c o m ms st :
  camel_loop txt c o st (m :: ms)
  = if negb (String.eqb (m_group m) txt)
    then camel_step c o m st :: camel_loop txt c o (camel_step c o m st) ms
    else camel_loop txt c o st ms.
Proof. reflexivity. Qed.

(** The stop filter over the loop over the matches, as the consumer sees
    it: the tokens of the loop it lets through, then what comes next, the
    token being in the state the loop left it in. *)
Lemma observe_stop_split_subs sf txt c o next ms : forall st,
  Shared.observe (Shared.StopFilter_call sf (Shared.split_subs txt c o next ms st))
  = gen_app (List.filter (kept sf) (camel_loop txt c o st ms))
      (Shared.observe (Shared.StopFilter_call sf (next (camel_final txt c o st ms)))).
Proof.
  induction ms as [|m ms IH]; intros st; [reflexivity|].
  rewrite split_subs_cons, camel_loop_cons. cbn [camel_final].
  destruct (negb (m_group m =? txt)%string); [|apply IH].
  cbn [Shared.StopFilter_call List.filter]. unfold kept at 1.
  rewrite camel_step_text.
  destruct (StopFilter.keeps sf (m_group m)); cbn [Shared.observe gen_app];
    now rewrite IH.
Qed.

Lemma camel_loop_has_text txt c o ms : forall st,
  Forall (fun u => exists x, text u = Some x) (camel_loop txt c o st ms).
Proof.
  induction ms as [|m ms IH]; intros st; [constructor|].
  rewrite camel_loop_cons. destruct (negb (m_group m =? txt)%string); [|apply IH].
  constructor; [|apply IH]. exists (m_group m). apply camel_step_text.
Qed.

Lemma StopFilter_call_gen_app sf l g :
  Forall (fun u => exists x, text u = Some x) l ->
  StopFilter.call sf (gen_app l g)
  = gen_app (List.filter (kept sf) l) (StopFilter.call sf g).
Proof.
  induction 1 as [|u l [x Hx] _ IH]; [reflexivity|].
  cbn [gen_app StopFilter.call List.filter]. unfold kept at 1. rewrite Hx.
  destruct (StopFilter.keeps sf x); cbn [gen_app]; now rewrite IH.
Qed.

(** When no match differs from the text the loop does nothing. *)
Lemma split_subs_quiet txt c o next ms : forall st,
  List.filter (differs txt) ms = [] ->
  Shared.split_subs txt c o next ms st = next st.
Proof.
  induction ms as [|m ms IH]; intros st H; [reflexivity|].
  rewrite split_subs_cons. cbn [List.filter] in H. unfold differs at 1 in H.
  destruct (negb (m_group m =? txt)%string); [discriminate | now apply IH].
Qed.

Lemma after_yield_quiet next st x :
  text st = Some x ->
  (chars st = true -> exists s, startchar st = Some s) ->
  camel_quiet x ->
  Shared.after_yield
    (fun txt => truthy txt && negb (islower txt) && negb (isupper txt) && negb (isdigit txt))
    _camel_exp next st = next st.
Proof.
  intros Hx Hs Hq. unfold Shared.after_yield. rewrite Hx. fold (camel_splits x).
  destruct (camel_splits x) eqn:E; [|reflexivity].
  destruct Hq as [Hq|Hq]; [congruence|].
  assert (Ho : exists o, (if chars st then startchar st else Some 0) = Some o).
  { destruct (chars st); [now apply Hs | now exists 0]. }
  destruct Ho as [o ->]. now apply split_subs_quiet.
Qed.

(** The text in which the loop leaves the token: that of the last match
    that differs, if there is one. *)
Lemma camel_final_text txt c o ms : forall st,
  text (camel_final txt c o st ms)
  = match last (List.filter (differs txt) ms) with
    | Some m => Some (m_group m)
    | None => text st
    end.
Proof.
  induction ms as [|m ms IH]; intros st; [reflexivity|].
  cbn [camel_final List.filter].
  change (negb (m_group m =? txt)%string) with (differs txt m).
  destruct (differs txt m); [|apply IH].
  rewrite IH, camel_step_text. clear IH.
  destruct (List.filter (differs txt) ms) as [|m' l]; [reflexivity|].
  change (last (m :: m' :: l)) with (last (m' :: l)).
  destruct (last (m' :: l)) eqn:El; [reflexivity|].
  apply last_None in El. discriminate.
Qed.

Lemma camel_final_startchar txt c o ms : forall st,
  (chars st = true -> exists s, startchar st = Some s) ->
  chars (camel_final txt c o st ms) = chars st
  /\ (chars st = true -> exists s, startchar (camel_final txt c o st ms) = Some s).
Proof.
  induction ms as [|m ms IH]; intros st H; [split; [reflexivity | exact H]|].
  cbn [camel_final]. destruct (negb (m_group m =? txt)%string); [|now apply IH].
  assert (Hc : chars (camel_step c o m st) = chars st)
    by (unfold camel_step, when; destruct c; reflexivity).
  destruct (IH (camel_step c o m st)) as [H1 H2].
  - rewrite Hc. intros Ht. destruct (H Ht) as [s Hs].
    unfold camel_step, when. destruct c; simpl; eauto.
  - rewrite Hc in *. split; assumption.
Qed.

(** In a text without upper-case letter a match of the camel pattern is a
    run of lower-case letters or a run of digits, which [CamelFilter] does
    not split. *)
Lemma scan_matches_closed re (Q : string -> Prop) :
  (forall c s, Q (String c s) -> Q s) ->
  forall s p skip, Q s ->
    Forall (fun m => exists s' n, Q s' /\ match_at re s' = Some n
                                  /\ m_group m = substring 0 n s')
           (scan re s p skip).
Proof.
  intros Hq. induction s as [|c s IH]; intros p skip HQ; cbn [scan].
  - destruct skip; [|constructor].
    destruct (match_at re "") as [n|] eqn:E; constructor; [|constructor].
    exists "", n. split; [exact HQ|]. split; [exact E | reflexivity].
  - pose proof (Hq c s HQ) as HQ'.
    destruct skip as [|k]; [|now apply IH].
    destruct (match_at re (String c s)) as [n|] eqn:E; [|now apply IH].
    constructor; [|now apply IH].
    exists (String c s), n. split; [exact HQ|]. split; [exact E | reflexivity].
Qed.

Lemma is_lower_not_upper c : is_lower c = true -> negb (is_upper c) = true.
Proof. destruct c as [[] [] [] [] [] [] [] []]; intros H; try reflexivity; discriminate H. Qed.

Lemma all_lower_islower g :
  g <> "" -> str_forallb is_lower g = true -> islower g = true.
Proof.
  intros Hne H. unfold islower. apply andb_true_iff. split.
  - apply (str_forallb_impl is_lower); [apply is_lower_not_upper | exact H].
  - destruct g as [|c g]; [congruence|]. simpl in *.
    apply andb_true_iff in H. destruct H as [-> _]. reflexivity.
Qed.

Lemma all_digit_isdigit g :
  g <> "" -> str_forallb is_digit g = true -> isdigit g = true.
Proof. intros Hne H. destruct g; [congruence | exact H]. Qed.

Lemma no_match_run_zero p s : str_existsb p s = false -> run_length p s = O.
Proof.
  destruct s as [|c s]; simpl; [reflexivity|].
  intros H. apply orb_false_iff in H. destruct H as [-> _]. reflexivity.
Qed.

Lemma single_plus_match p s n :
  match_seq [Atom p Plus] s = Some n ->
  substring 0 n s <> "" /\ str_forallb p (substring 0 n s) = true.
Proof.
  intros H. apply match_seq_cons_inv in H. cbn [cls qt] in H.
  destruct H as (k & m & Hk & H1 & Hm & ->).
  simpl in Hm. revert Hm. intros [= <-]. rewrite Nat.add_0_r.
  assert (1 <= k)%nat by (apply H1; discriminate).
  pose proof (run_length_le p s). split.
  - intros E. pose proof (substring_0_length k s ltac:(lia)) as Hl.
    rewrite E in Hl. simpl in Hl. lia.
  - now apply run_prefix.
Qed.

Lemma camel_match_no_upper s n :
  str_existsb is_upper s = false ->
  match_at _camel_exp s = Some n ->
  camel_splits (substring 0 n s) = false.
Proof.
  intros Hs. unfold _camel_exp. cbn [match_at].
  destruct (match_seq [Atom is_upper One; Atom is_lower Star] s) as [n1|] eqn:E1.
  { apply match_seq_cons_inv in E1. cbn [cls qt] in E1.
    destruct E1 as (k & m & Hk & H1 & _).
    rewrite (no_match_run_zero _ _ Hs) in Hk.
    assert (1 <= k)%nat by (apply H1; discriminate). lia. }
  destruct (match_seq [Atom is_lower Plus] s) as [n2|] eqn:E2.
  { intros [= <-]. destruct (single_plus_match _ _ _ E2) as [Hne Hall].
    unfold camel_splits. rewrite (all_lower_islower _ Hne Hall). simpl.
    now rewrite andb_false_r. }
  destruct (match_seq [Atom is_digit Plus] s) as [n3|] eqn:E3; [|discriminate].
  intros [= <-]. destruct (single_plus_match _ _ _ E3) as [Hne Hall].
  unfold camel_splits. rewrite (all_digit_isdigit _ Hne Hall). simpl.
  now rewrite andb_false_r.
Qed.

Lemma str_existsb_tail p c s : str_existsb p (String c s) = false -> str_existsb p s = false.
Proof. simpl. intros H. apply orb_false_iff in H. tauto. Qed.

Lemma camel_matches_no_upper x :
  str_existsb is_upper x = false ->
  Forall (fun m => camel_splits (m_group m) = false) (finditer _camel_exp x).
Proof.
  intros Hx. unfold finditer.
  eapply Forall_impl;
    [apply (scan_matches_closed _camel_exp (fun s => str_existsb is_upper s = false)
              (str_existsb_tail is_upper) x 0 0 Hx)|].
  simpl. intros m (s' & n & Hs' & Hm & ->). now apply camel_match_no_upper.
Qed.

(** The state in which [UnderscoreFilter] hands a lowercased token back:
    [CamelFilter], resumed on it, adds nothing. *)
Lemma camel_final_quiet x c o st :
  str_existsb is_upper x = false ->
  text st = Some x ->
  exists y, text (camel_final x c o st (finditer _underscore_exp x)) = Some y
            /\ camel_quiet y.
Proof.
  intros Hx Hst. rewrite camel_final_text.
  change _underscore_exp with _camel_exp.
  destruct (last (List.filter (differs x) (finditer _camel_exp x))) as [m|] eqn:El.
  - exists (m_group m). split; [reflexivity|]. left.
    apply last_Some_elem_of in El. apply list_elem_of_In, filter_In in El.
    destruct El as [Hin _].
    pose proof (camel_matches_no_upper x Hx) as H.
    rewrite Forall_forall in H. apply H. now apply list_elem_of_In.
  - exists x. split; [exact Hst|]. right. now apply last_None in El.
Qed.

Section FancyPipeline.
Variable sf : StopFilter.t.
Variables pflag cflag : bool.
Variables start_pos start_char : Z.

(** The pipeline of [FancyAnalyzer] from the state of the tokenizer on. *)
Lemma fancy_loop ms : forall i st t,
  agree cflag st t ->
  Shared.observe
    (Shared.StopFilter_call sf
       (Shared.UnderscoreFilter
          (Shared.LowerCaseFilter
             (Shared.CamelFilter
                (Shared.regex_loop pflag cflag start_pos start_char st i ms)))))
  = StopFilter.call sf
      (UnderscoreFilter
         (LowerCaseFilter
            (match_loop (fun s => s) pflag cflag start_pos start_char t i ms))).
Proof.
  induction ms as [|m ms IH]; intros i st t Hag; [reflexivity|].
  rewrite regex_loop_cons, match_loop_cons, (word_token_agree _ _ _ _ m i st t Hag).
  set (t1 := word_token pflag cflag start_pos start_char m i t).
  assert (Hct : chars t = cflag) by (destruct Hag as (_ & _ & H & _); exact H).
  destruct (word_token_fields pflag cflag start_pos start_char m i t Hct)
    as (Htxt & Hc1 & Hs1 & Hag1). fold t1 in Htxt, Hc1, Hs1, Hag1.
  set (x := lower (m_group m)).
  set (t2 := set_text x t1).
  assert (Ht2 : text t2 = Some x) by reflexivity.
  assert (Hc2 : chars t2 = cflag) by exact Hc1.
  assert (Hs2 : chars t2 = true -> exists s, startchar t2 = Some s).
  { rewrite Hc2. exact Hs1. }
  assert (Hag2 : agree cflag t2 t1) by (apply agree_set_text; exact Hag1).
  (* what the consumer sees once the whole word has gone by *)
  set (kT := fun st' => Shared.regex_loop pflag cflag start_pos start_char st' (S i) ms).
  set (nextC := fun st' => Shared.CamelFilter (kT st')).
  set (cA := Shared.after_yield
               (fun txt => truthy txt && negb (islower txt) && negb (isupper txt)
                           && negb (isdigit txt)) _camel_exp nextC).
  set (nextU := fun st' => Shared.UnderscoreFilter (Shared.LowerCaseFilter (cA st'))).
  set (uA := Shared.after_yield truthy _underscore_exp nextU).
  set (R := match_loop (fun s => s) pflag cflag start_pos start_char t1 (S i) ms).
  assert (Hnext : forall stf,
            agree cflag stf t1 ->
            (chars stf = true -> exists s, startchar stf = Some s) ->
            (exists y, text stf = Some y /\ camel_quiet y) ->
            Shared.observe (Shared.StopFilter_call sf (nextU stf))
            = StopFilter.call sf (UnderscoreFilter (LowerCaseFilter R))).
  { intros stf Hagf Hsf (y & Hy & Hq). unfold nextU, cA.
    rewrite (after_yield_quiet nextC stf y Hy Hsf Hq). unfold nextC, kT.
    apply (IH (S i) stf t1 Hagf). }
  assert (Hafter :
            Shared.observe (Shared.StopFilter_call sf (uA t2))
            = StopFilter.call sf
                (match text t2 with
                 | None => Raise AttributeError
                 | Some txt =>
                     if truthy txt then
                       match (if chars t2 then startchar t2 else Some 0) with
                       | None => Raise AttributeError
                       | Some oldstart =>
                           gen_app (camel_loop txt (chars t2) oldstart t2
                                      (finditer _underscore_exp txt))
                                   (UnderscoreFilter (LowerCaseFilter R))
                       end
                     else UnderscoreFilter (LowerCaseFilter R)
                 end)).
  { unfold uA, Shared.after_yield. rewrite Ht2.
    destruct (truthy x) eqn:Etr.
    - assert (Ho : exists o, (if chars t2 then startchar t2 else Some 0) = Some o).
      { destruct (chars t2); [now apply Hs2 | now exists 0]. }
      destruct Ho as [o ->].
      rewrite observe_stop_split_subs,
        (StopFilter_call_gen_app sf _ _ (camel_loop_has_text x (chars t2) o _ t2)).
      f_equal. apply Hnext.
      + rewrite Hc2. now apply agree_camel_final.
      + destruct (camel_final_startchar x (chars t2) o
                    (finditer _underscore_exp x) t2 Hs2) as [E1 E2].
        rewrite E1. exact E2.
      + apply camel_final_quiet; [apply lower_no_upper | exact Ht2].
    - apply Hnext; [exact Hag2 | exact Hs2 |].
      exists x. split; [exact Ht2|]. left. unfold camel_splits. now rewrite Etr. }
  (* the whole word itself *)
  unfold Shared.CamelFilter, Shared.UnderscoreFilter.
  cbn [Shared.split_filter Shared.LowerCaseFilter LowerCaseFilter].
  rewrite Htxt. fold x. fold t2.
  cbn [Shared.split_filter Shared.StopFilter_call UnderscoreFilter StopFilter.call].
  rewrite Ht2.
  fold kT. fold (Shared.CamelFilter). fold nextC. fold cA.
  fold (Shared.UnderscoreFilter). fold nextU. fold uA. fold R.
  rewrite Ht2 in Hafter.
  destruct (StopFilter.keeps sf x); cbn [Shared.observe]; now rewrite Hafter.
Qed.
(** The same pipeline without [CamelFilter]. *)
Lemma underscore_loop ms : forall i st t,
  agree cflag st t ->
  Shared.observe
    (Shared.StopFilter_call sf
       (Shared.UnderscoreFilter
          (Shared.LowerCaseFilter
             (Shared.regex_loop pflag cflag start_pos start_char st i ms))))
  = StopFilter.call sf
      (UnderscoreFilter
         (LowerCaseFilter
            (match_loop (fun s => s) pflag cflag start_pos start_char t i ms))).
Proof.
  induction ms as [|m ms IH]; intros i st t Hag; [reflexivity|].
  rewrite regex_loop_cons, match_loop_cons, (word_token_agree _ _ _ _ m i st t Hag).
  set (t1 := word_token pflag cflag start_pos start_char m i t).
  assert (Hct : chars t = cflag) by (destruct Hag as (_ & _ & H & _); exact H).
  destruct (word_token_fields pflag cflag start_pos start_char m i t Hct)
    as (Htxt & Hc1 & Hs1 & Hag1). fold t1 in Htxt, Hc1, Hs1, Hag1.
  set (x := lower (m_group m)).
  set (t2 := set_text x t1).
  assert (Ht2 : text t2 = Some x) by reflexivity.
  assert (Hc2 : chars t2 = cflag) by exact Hc1.
  assert (Hs2 : chars t2 = true -> exists s, startchar t2 = Some s).
  { rewrite Hc2. exact Hs1. }
  assert (Hag2 : agree cflag t2 t1) by (apply agree_set_text; exact Hag1).
  set (kT := fun st' => Shared.regex_loop pflag cflag start_pos start_char st' (S i) ms).
  set (nextU := fun st' => Shared.UnderscoreFilter (Shared.LowerCaseFilter (kT st'))).
  set (uA := Shared.after_yield truthy _underscore_exp nextU).
  set (R := match_loop (fun s => s) pflag cflag start_pos start_char t1 (S i) ms).
  assert (Hnext : forall stf,
            agree cflag stf t1 ->
            Shared.observe (Shared.StopFilter_call sf (nextU stf))
            = StopFilter.call sf (UnderscoreFilter (LowerCaseFilter R))).
  { intros stf Hagf. unfold nextU, kT. apply (IH (S i) stf t1 Hagf). }
  assert (Hafter :
            Shared.observe (Shared.StopFilter_call sf (uA t2))
            = StopFilter.call sf
                (if truthy x then
                   match (if chars t2 then startchar t2 else Some 0) with
                   | None => Raise AttributeError
                   | Some oldstart =>
                       gen_app (camel_loop x (chars t2) oldstart t2
                                  (finditer _underscore_exp x))
                               (UnderscoreFilter (LowerCaseFilter R))
                   end
                 else UnderscoreFilter (LowerCaseFilter R))).
  { unfold uA, Shared.after_yield. rewrite Ht2.
    destruct (truthy x) eqn:Etr; [|now apply Hnext].
    assert (Ho : exists o, (if chars t2 then startchar t2 else Some 0) = Some o).
    { destruct (chars t2); [now apply Hs2 | now exists 0]. }
    destruct Ho as [o ->].
    rewrite observe_stop_split_subs,
      (StopFilter_call_gen_app sf _ _ (camel_loop_has_text x (chars t2) o _ t2)).
    f_equal. apply Hnext. rewrite Hc2. now apply agree_camel_final. }
  unfold Shared.UnderscoreFilter.
  cbn [Shared.split_filter Shared.LowerCaseFilter LowerCaseFilter].
  rewrite Htxt. fold x. fold t2.
  cbn [Shared.split_filter Shared.StopFilter_call UnderscoreFilter StopFilter.call].
  rewrite Ht2.
  fold kT. fold (Shared.UnderscoreFilter). fold nextU. fold uA. fold R.
  destruct (StopFilter.keeps sf x); cbn [Shared.observe]; now rewrite Hafter.
Qed.
End FancyPipeline.

Lemma agree_Token_init pflag cflag :
  agree cflag (Token_init pflag cflag false) (Token_init pflag cflag false).
Proof. unfold agree. simpl. repeat split; reflexivity. Qed.

Lemma match_loop_readable group_text pflag start_pos start_char ms : forall t i,
  chars t = true ->
  Forall readable (yielded (match_loop group_text pflag true start_pos start_char t i ms)).
Proof.
  induction ms as [|m ms IH]; intros t i Hc; simpl; [constructor|].
  constructor.
  - unfold readable, when. destruct pflag; simpl; split; eauto.
  - apply IH. unfold when. destruct pflag; simpl; exact Hc.
Qed.

Lemma match_loop_unreadable_chars group_text pflag start_pos start_char ms : forall t i,
  chars t = false ->
  Forall (fun u => chars u = false /\ exists x, text u = Some x)
    (yielded (match_loop group_text pflag false start_pos start_char t i ms)).
Proof.
  induction ms as [|m ms IH]; intros t i Hc; simpl; [constructor|].
  constructor.
  - unfold when. destruct pflag; simpl; split; eauto.
  - apply IH. unfold when. destruct pflag; simpl; exact Hc.
Qed.

Lemma RegexTokenizer_readable self value positions chars start_pos start_char :
  Forall readable
    (yielded (RegexTokenizer.call self value positions chars start_pos start_char)).
Proof.
  unfold RegexTokenizer.call. destruct chars.
  - now apply match_loop_readable.
  - eapply Forall_impl; [now apply match_loop_unreadable_chars|].
    simpl. intros u [Hc Hx]. split; [exact Hx | congruence].
Qed.

Lemma LowerCaseFilter_readable g :
  Forall readable (yielded g) -> Forall readable (yielded (LowerCaseFilter g)).
Proof.
  intros H. apply Forall_forall. intros u Hu.
  destruct (LowerCaseFilter_elem g u Hu) as (t & txt & Hin & Ht & ->).
  rewrite Forall_forall in H. destruct (H t Hin) as [_ Hs].
  split; [now exists (lower txt) | exact Hs].
Qed.

Lemma UnderscoreFilter_no_raise g :
  raises g = None -> Forall readable (yielded g) ->
  raises (UnderscoreFilter g) = None
  /\ Forall (fun u => exists x, text u = Some x) (yielded (UnderscoreFilter g)).
Proof.
  induction g as [| e | t rest IH]; simpl; [split; [reflexivity | constructor] | discriminate |].
  intros Hr Hall. inversion Hall as [|x l [[txt Ht] Hs] Hall']; subst.
  destruct (IH Hr Hall') as [IH1 IH2]. rewrite Ht.
  destruct (truthy txt).
  - assert (Ho : exists o, (if chars t then startchar t else Some 0) = Some o).
    { destruct (chars t); [now apply Hs | now exists 0]. }
    destruct Ho as [o ->]. rewrite raises_gen_app, yielded_gen_app.
    split; [exact IH1|]. constructor; [now exists txt|].
    apply Forall_app. split; [apply camel_loop_has_text | exact IH2].
  - split; [exact IH1|]. constructor; [now exists txt | exact IH2].
Qed.

(** X20. In [FancyAnalyzer] the camel-case filter is inert.  The filters
    share one token, and by the time [CamelFilter] reads its text again,
    after its [yield], [LowerCaseFilter] and [UnderscoreFilter] have
    rewritten it in place: it is a text that [CamelFilter] does not split.
    A consumer that reads each token as it is yielded therefore sees
    exactly what it sees of the same pipeline without [CamelFilter]
    (pattern tokenizer, lowercase filter, underscore filter, stop filter),
    for every stop list, minimum size, input and flags.  These are the
    states that the stages yield when each is run on its own, and the
    analyzer never raises. *)
Theorem X20_FancyAnalyzer_camel_filter_inert (stoplist : option (gset string))
    (minsize : Z) (value : string) (positions chars : bool) (start_pos start_char : Z) :
  let seen := Shared.observe
                (FancyAnalyzer.call (FancyAnalyzer.init stoplist minsize)
                   value positions chars start_pos start_char) in
  seen = Shared.observe
           (Shared.StopFilter_call (StopFilter.init stoplist minsize)
              (Shared.UnderscoreFilter
                 (Shared.LowerCaseFilter
                    (Shared.RegexTokenizer_call (RegexTokenizer.init None)
                       value positions chars start_pos start_char))))
  /\ seen = StopFilter.call (StopFilter.init stoplist minsize)
              (UnderscoreFilter
                 (LowerCaseFilter
                    (RegexTokenizer.call (RegexTokenizer.init None)
                       value positions chars start_pos start_char)))
  /\ raises seen = None.
Proof.
  cbv zeta.
  assert (E : Shared.observe
                (FancyAnalyzer.call (FancyAnalyzer.init stoplist minsize)
                   value positions chars start_pos start_char)
              = StopFilter.call (StopFilter.init stoplist minsize)
                  (UnderscoreFilter
                     (LowerCaseFilter
                        (RegexTokenizer.call (RegexTokenizer.init None)
                           value positions chars start_pos start_char)))).
  { unfold FancyAnalyzer.call, Shared.RegexTokenizer_call, RegexTokenizer.call.
    cbn [FancyAnalyzer.stopper FancyAnalyzer.tokenizer FancyAnalyzer.init].
    apply fancy_loop. apply agree_Token_init. }
  split; [|split; [exact E|]].
  - rewrite E. symmetry.
    unfold Shared.RegexTokenizer_call, RegexTokenizer.call.
    apply underscore_loop. apply agree_Token_init.
  - rewrite E.
    destruct (RegexTokenizer_no_raise (RegexTokenizer.init None) value positions chars
                start_pos start_char) as [Hr Ht].
    pose proof (RegexTokenizer_readable (RegexTokenizer.init None) value positions chars
                  start_pos start_char) as Hrd.
    destruct (LowerCaseFilter_no_raise _ Hr Ht) as [Hlr _].
    destruct (UnderscoreFilter_no_raise _ Hlr (LowerCaseFilter_readable _ Hrd))
      as [Hur Hut].
    now apply StopFilter_no_raise.
Qed.

Section SharedStandard.
Variable sf : StopFilter.t.
Variables pflag cflag : bool.
Variables start_pos start_char : Z.

Lemma shared_simple_loop ms : forall i st t,
  agree cflag st t ->
  Shared.observe
    (Shared.LowerCaseFilter (Shared.regex_loop pflag cflag start_pos start_char st i ms))
  = LowerCaseFilter (match_loop (fun s => s) pflag cflag start_pos start_char t i ms).
Proof.
  induction ms as [|m ms IH]; intros i st t Hag; [reflexivity|].
  rewrite regex_loop_cons, match_loop_cons, (word_token_agree _ _ _ _ m i st t Hag).
  assert (Hct : chars t = cflag) by (destruct Hag as (_ & _ & H & _); exact H).
  destruct (word_token_fields pflag cflag start_pos start_char m i t Hct)
    as (Htxt & _ & _ & Hag1).
  cbn [Shared.LowerCaseFilter LowerCaseFilter]. rewrite Htxt.
  cbn [Shared.observe]. f_equal. apply IH. now apply agree_set_text.
Qed.

Lemma shared_standard_loop ms : forall i st t,
  agree cflag st t ->
  Shared.observe
    (Shared.StopFilter_call sf
       (Shared.LowerCaseFilter
          (Shared.regex_loop pflag cflag start_pos start_char st i ms)))
  = StopFilter.call sf
      (LowerCaseFilter (match_loop (fun s => s) pflag cflag start_pos start_char t i ms)).
Proof.
  induction ms as [|m ms IH]; intros i st t Hag; [reflexivity|].
  rewrite regex_loop_cons, match_loop_cons, (word_token_agree _ _ _ _ m i st t Hag).
  assert (Hct : chars t = cflag) by (destruct Hag as (_ & _ & H & _); exact H).
  destruct (word_token_fields pflag cflag start_pos start_char m i t Hct)
    as (Htxt & _ & _ & Hag1).
  cbn [Shared.LowerCaseFilter LowerCaseFilter]. rewrite Htxt.
  cbn [Shared.StopFilter_call StopFilter.call text set_text].
  destruct (StopFilter.keeps sf (lower (m_group m))); cbn [Shared.observe];
    [f_equal|]; apply IH; now apply agree_set_text.
Qed.
End SharedStandard.

(** X21. In the simple and the standard analyzer the sharing of the token
    does not show: what a consumer reads off the shared token at each
    [yield], with the lowercase filter writing to the very token the
    tokenizer goes on with, are the states that each stage yields when run
    on its own, because the tokenizer assigns [text] again before its next
    [yield]. *)
Theorem X21_shared_token_invisible (words : gset string) (minsize : Z) (value : string)
    (positions chars : bool) (start_pos start_char : Z) :
  Shared.observe
    (Shared.LowerCaseFilter
       (Shared.RegexTokenizer_call (RegexTokenizer.init None)
          value positions chars start_pos start_char))
  = SimpleAnalyzer.call SimpleAnalyzer.init value positions chars start_pos start_char
  /\ Shared.observe
       (Shared.StopFilter_call (StopFilter.init (Some words) minsize)
          (Shared.LowerCaseFilter
             (Shared.RegexTokenizer_call (RegexTokenizer.init None)
                value positions chars start_pos start_char)))
     = StandardAnalyzer.call (StandardAnalyzer.init (Some words) minsize)
         value positions chars start_pos start_char.
Proof.
  split.
  - unfold Shared.RegexTokenizer_call, SimpleAnalyzer.call, RegexTokenizer.call.
    apply shared_simple_loop, agree_Token_init.
  - unfold Shared.RegexTokenizer_call, StandardAnalyzer.call, RegexTokenizer.call.
    cbn [StandardAnalyzer.stopper StandardAnalyzer.tokenizer StandardAnalyzer.init].
    apply shared_standard_loop, agree_Token_init.
Qed.

(** ** The camel-case and underscore filters on the shared token *)

Lemma split_filter_out guard exp t k :
  Shared.split_filter guard exp (Shared.Out t k)
  = Shared.Out t
      (Shared.Co (Shared.after_yield guard exp
                    (fun st => Shared.split_filter guard exp (Shared.resume k st)))).
Proof. destruct k; reflexivity. Qed.

(** The loop over the matches, as a consumer that only reads sees it: the
    tokens of the loop, then what comes next, the token being in the
    state the loop left it in. *)
Lemma observe_split_subs txt c o next ms : forall st,
  Shared.observe (Shared.split_subs txt c o next ms st)
  = gen_app (camel_loop txt c o st ms)
      (Shared.observe (next (camel_final txt c o st ms))).
Proof.
  induction ms as [|m ms IH]; intros st; [reflexivity|].
  rewrite split_subs_cons, camel_loop_cons. cbn [camel_final].
  destruct (negb (m_group m =? txt)%string); [|apply IH].
  cbn [Shared.observe gen_app]. now rewrite IH.
Qed.

Lemma last_cons_default {A} (x d : A) l : default d (last (x :: l)) = default x (last l).
Proof.
  revert x d. induction l as [|y l IH]; intros x d; [reflexivity|].
  change (last (x :: y :: l)) with (last (y :: l)).
  now rewrite (IH y d), (IH y x).
Qed.

(** The loop leaves the token in the state of the last token it yielded. *)
Lemma camel_final_last txt c o ms : forall st,
  camel_final txt c o st ms = left_as st (camel_loop txt c o st ms).
Proof.
  unfold left_as.
  induction ms as [|m ms IH]; intros st; [reflexivity|].
  rewrite camel_loop_cons. cbn [camel_final].
  destruct (negb (m_group m =? txt)%string); [|apply IH].
  now rewrite IH, last_cons_default.
Qed.

(** What a split filter does when it is resumed with the token in the
    state [st]. *)
Lemma observe_after_yield (guard : string -> bool) (exp : regex) (next : Token -> Shared.out)
    (st : Token) (txt : string) :
  text st = Some txt ->
  (chars st = true -> exists s, startchar st = Some s) ->
  let subs := if guard txt
              then List.map (sub_token st) (List.filter (differs txt) (finditer exp txt))
              else [] in
  Shared.observe (Shared.after_yield guard exp next st)
  = gen_app subs (Shared.observe (next (left_as st subs))).
Proof.
  intros Htext Hstart. cbv zeta. unfold Shared.after_yield. rewrite Htext.
  destruct (guard txt); [|reflexivity].
  assert (Ho : exists o, (if chars st then startchar st else Some 0) = Some o).
  { destruct (chars st); [now apply Hstart | now exists 0]. }
  destruct Ho as [o Ho]. rewrite Ho.
  rewrite observe_split_subs, camel_final_last.
  now rewrite (camel_loop_sub_tokens st txt o _ Ho).
Qed.

(** *** The matches of the pattern cover the letters and digits *)

Lemma str_filter_prefix q k : forall s,
  str_forallb q (substring 0 k s) = true ->
  str_filter q s = substring 0 k s ++ str_filter q (str_drop k s).
Proof.
  induction k as [|k IH]; intros s H.
  - destruct s; reflexivity.
  - destruct s as [|c s]; [reflexivity|].
    simpl in H. apply andb_true_iff in H. destruct H as [Hc H].
    cbn [str_filter str_drop]. rewrite Hc.
    change (substring 0 (S k) (String c s)) with (String c (substring 0 k s)).
    rewrite (IH s H) at 1. reflexivity.
Qed.

(** When a pattern matches wherever a character of the class [q] stands,
    and only characters of [q], its matches put end to end are the
    characters of [q] of the input. *)
Lemma scan_join re q :
  (forall c, re_class re c = true -> q c = true) ->
  never_empty re = true ->
  (forall c s, q c = true -> match_at re (String c s) <> None) ->
  forall s pos skip,
    str_forallb q (substring 0 skip s) = true -> (skip <= String.length s)%nat ->
    join (List.map m_group (scan re s pos skip)) = str_filter q (str_drop skip s).
Proof.
  intros Hcls Hne Hmatch.
  induction s as [|c s IH]; intros pos skip Hq Hskip; cbn [scan].
  - simpl in Hskip. replace skip with O by lia.
    destruct (match_at re "") as [n|] eqn:E; [|reflexivity].
    pose proof (match_at_nonempty re _ _ Hne E).
    pose proof (match_at_le re _ _ E) as Hle. simpl in Hle. lia.
  - destruct skip as [|k].
    + destruct (match_at re (String c s)) as [n|] eqn:E.
      * pose proof (match_at_nonempty re _ _ Hne E) as Hn.
        pose proof (match_at_le re _ _ E) as Hle.
        pose proof (match_at_chars re _ _ E) as Hch.
        destruct n as [|n]; [lia|].
        simpl in Hle, Hch. apply andb_true_iff in Hch. destruct Hch as [Hc Hch].
        apply (str_forallb_impl _ q) in Hch; [|exact Hcls].
        cbn [List.map join m_group Nat.pred str_drop str_filter].
        rewrite (IH (S pos) n Hch) by lia.
        rewrite (Hcls c Hc).
        change (substring 0 (S n) (String c s)) with (String c (substring 0 n s)).
        rewrite (str_filter_prefix q n s Hch). reflexivity.
      * cbn [str_drop str_filter].
        destruct (q c) eqn:Eq; [exfalso; now apply (Hmatch c s)|].
        rewrite (IH (S pos) O); [reflexivity | destruct s; reflexivity | lia].
    + simpl in Hq, Hskip. apply andb_true_iff in Hq. destruct Hq as [_ Hq].
      cbn [str_drop]. apply IH; [exact Hq | lia].
Qed.

Lemma match_seq_star p s : match_seq [Atom p Star] s = Some (run_length p s).
Proof.
  rewrite match_seq_cons. cbn [qt cls]. apply try_down_top.
  unfold match_rest. simpl. f_equal. lia.
Qed.

Lemma match_seq_plus p c s : p c = true -> match_seq [Atom p Plus] (String c s) <> None.
Proof.
  intros Hc. pose proof (match_at_single_plus p (String c s)) as H.
  cbn [match_at] in H. cbn [run_length] in H. rewrite Hc in H. cbn [Nat.leb] in H.
  destruct (match_seq [Atom p Plus] (String c s)); [discriminate | discriminate H].
Qed.

(** The camel pattern matches wherever a letter or a digit stands. *)
Lemma camel_exp_matches c s :
  is_alnum c = true -> match_at _camel_exp (String c s) <> None.
Proof.
  unfold is_alnum, is_alpha, _camel_exp. intros H. cbn [match_at].
  destruct (match_seq [Atom is_upper One; Atom is_lower Star] (String c s)) eqn:E1;
    [discriminate|].
  destruct (match_seq [Atom is_lower Plus] (String c s)) eqn:E2; [discriminate|].
  destruct (match_seq [Atom is_digit Plus] (String c s)) eqn:E3; [discriminate|].
  exfalso.
  destruct (is_upper c) eqn:Eu.
  - rewrite match_seq_cons in E1. cbn [qt cls run_length] in E1. rewrite Eu in E1.
    cbn [Nat.leb] in E1. unfold match_rest in E1. cbn [str_drop] in E1.
    rewrite match_seq_star in E1. discriminate E1.
  - destruct (is_lower c) eqn:El.
    + now apply (match_seq_plus is_lower c s El).
    + simpl in H. now apply (match_seq_plus is_digit c s H).
Qed.

Lemma finditer_underscore_join txt :
  join (List.map m_group (finditer _underscore_exp txt)) = str_filter is_alnum txt.
Proof.
  unfold finditer. change _underscore_exp with _camel_exp.
  rewrite (scan_join _camel_exp is_alnum); [reflexivity | | reflexivity | | | ].
  - intros c. now rewrite re_class_camel.
  - apply camel_exp_matches.
  - destruct txt; reflexivity.
  - lia.
Qed.

Lemma filter_all {A} (P : A -> bool) l :
  Forall (fun x => P x = true) l -> List.filter P l = l.
Proof. induction 1 as [|x l Hx _ IH]; simpl; [reflexivity|]. now rewrite Hx, IH. Qed.

(** In a text that holds a character that is no letter or digit every
    match differs from the text. *)
Lemma underscore_all_differ txt :
  str_forallb is_alnum txt = false ->
  List.filter (differs txt) (finditer _underscore_exp txt) = finditer _underscore_exp txt.
Proof.
  intros Hno. apply filter_all.
  eapply Forall_impl; [apply (finditer_groups _underscore_exp txt)|].
  simpl. intros m [Hcls _]. unfold differs. apply negb_true_iff, String.eqb_neq.
  intros E. rewrite E in Hcls.
  apply (str_forallb_impl _ is_alnum) in Hcls; [congruence|].
  intros c. change _underscore_exp with _camel_exp. now rewrite re_class_camel.
Qed.

Lemma sub_token_text t m : text (sub_token t m) = Some (m_group m).
Proof. unfold sub_token. destruct (chars t), (startchar t); reflexivity. Qed.

(** X12. [UnderscoreFilter] yields the incoming token as it is.  When it
    is resumed, the token being in a state with text [txt] (the state the
    consumer hands it back in: the yielded state for a consumer that only
    reads, the rewritten one after a filter that writes), it yields one
    sub-token for every match of its pattern in [txt] that differs from
    [txt], in the order of the matches, and then pulls the next token,
    the token being left as the last sub-token (the consumer only reading
    from then on).  Each sub-token has the
    [original], [pos] and [stopped] of the token handed back and a text
    that is a non-empty run of ASCII letters and digits (so it holds no
    underscore) different from [txt], delimited within [txt] by its
    offsets when char offsets are active.  When [txt] holds a character
    that is no letter or digit, an underscore say, no match is left out:
    the texts of the sub-tokens put end to end are the letters and digits
    of [txt].  On ["get_processed_token"] a reading consumer sees the word,
    then ["get"], ["processed"], ["token"]. *)
Theorem X12_UnderscoreFilter_sub_words (t st : Token) (k : Shared.co) (txt : string)
    (Htext : text st = Some txt)
    (Hstart : chars st = true -> exists s, startchar st = Some s) :
  exists k',
    Shared.UnderscoreFilter (Shared.Out t k) = Shared.Out t k'
    /\ Shared.observe (Shared.resume k' st)
       = gen_app (under_subs st txt)
           (Shared.observe
              (Shared.UnderscoreFilter
                 (Shared.resume k (left_as st (under_subs st txt)))))
    /\ Forall (sub_word st txt) (under_subs st txt)
    /\ (str_forallb is_alnum txt = false ->
        exists l, List.map text (under_subs st txt) = List.map Some l
                  /\ join l = str_filter is_alnum txt)
    /\ texts (Shared.observe
                (Shared.UnderscoreFilter
                   (Shared.RegexTokenizer_call (RegexTokenizer.init None)
                      "get_processed_token" true true 0 0)))
       = [Some "get_processed_token"; Some "get"; Some "processed"; Some "token"].
Proof.
  eexists. split; [apply split_filter_out|]. cbn [Shared.resume].
  split; [|split; [|split]].
  - exact (observe_after_yield truthy _underscore_exp
             (fun st' => Shared.UnderscoreFilter (Shared.resume k st'))
             st txt Htext Hstart).
  - unfold under_subs. destruct (truthy txt); [|constructor].
    now apply sub_tokens_are_sub_words.
  - intros Hno. exists (List.map m_group (finditer _underscore_exp txt)). split.
    + unfold under_subs.
      assert (Htr : truthy txt = true) by (destruct txt; [discriminate Hno | reflexivity]).
      rewrite Htr, (underscore_all_differ txt Hno), !List.map_map.
      apply map_ext. intros m. apply sub_token_text.
    + apply finditer_underscore_join.
  - vm_compute. reflexivity.
Qed.

Lemma X12_UnderscoreFilter_sub_words_witness :
  text underscore_word = Some "get_processed_token"
  /\ (chars underscore_word = true -> exists s, startchar underscore_word = Some s)
  /\ exists k',
       Shared.UnderscoreFilter (Shared.Out underscore_word (Shared.Co (fun _ => Shared.Done)))
       = Shared.Out underscore_word k'
       /\ Shared.observe (Shared.resume k' underscore_word)
          = gen_app (under_subs underscore_word "get_processed_token")
              (Shared.observe
                 (Shared.UnderscoreFilter
                    (Shared.resume (Shared.Co (fun _ => Shared.Done))
                       (left_as underscore_word
                          (under_subs underscore_word "get_processed_token")))))
       /\ Forall (sub_word underscore_word "get_processed_token")
            (under_subs underscore_word "get_processed_token")
       /\ (str_forallb is_alnum "get_processed_token" = false ->
           exists l, List.map text (under_subs underscore_word "get_processed_token")
                     = List.map Some l
                     /\ join l = str_filter is_alnum "get_processed_token")
       /\ texts (Shared.observe
                   (Shared.UnderscoreFilter
                      (Shared.RegexTokenizer_call (RegexTokenizer.init None)
                         "get_processed_token" true true 0 0)))
          = [Some "get_processed_token"; Some "get"; Some "processed"; Some "token"].
Proof.
  assert (H1 : text underscore_word = Some "get_processed_token") by reflexivity.
  assert (H2 : chars underscore_word = true -> exists s, startchar underscore_word = Some s)
    by (intros _; exists 0; reflexivity).
  split; [exact H1|]. split; [exact H2|].
  exact (X12_UnderscoreFilter_sub_words underscore_word underscore_word
           (Shared.Co (fun _ => Shared.Done)) _ H1 H2).
Defined.

(** X13. [CamelFilter] yields the incoming token as it is.  When it is
    resumed, the token being in a state with text [txt], it yields, if
    [txt] is neither empty, lower-case, upper-case nor numeric, one
    sub-token for every match of the camel pattern in [txt] that differs
    from [txt], and then pulls the next token, the token being left as
    the last sub-token (the consumer only reading from then on).  The
    text it splits is the one the token has when
    the filter is resumed: that of the yielded state for a consumer that
    only reads, the rewritten one after a filter that writes.  Each
    sub-token has the [original], [pos] and [stopped] of the token handed
    back and a text that is a non-empty run of ASCII letters and digits
    different from [txt], delimited within [txt] by its offsets, counted
    from the [startchar] of the token handed back, when char offsets are
    active. *)
Theorem X13_CamelFilter_sub_words (t st : Token) (k : Shared.co) (txt : string)
    (Htext : text st = Some txt)
    (Hstart : chars st = true -> exists s, startchar st = Some s) :
  exists k',
    Shared.CamelFilter (Shared.Out t k) = Shared.Out t k'
    /\ Shared.observe (Shared.resume k' st)
       = gen_app (camel_subs st txt)
           (Shared.observe
              (Shared.CamelFilter
                 (Shared.resume k (left_as st (camel_subs st txt)))))
    /\ Forall (sub_word st txt) (camel_subs st txt)
    /\ (islower txt = true \/ isupper txt = true \/ isdigit txt = true \/ txt = "" ->
        camel_subs st txt = []).
Proof.
  eexists. split; [apply split_filter_out|]. cbn [Shared.resume].
  split; [|split].
  - exact (observe_after_yield camel_splits _camel_exp
             (fun st' => Shared.CamelFilter (Shared.resume k st'))
             st txt Htext Hstart).
  - unfold camel_subs. destruct (camel_splits txt); [|constructor].
    now apply sub_tokens_are_sub_words.
  - intros H. unfold camel_subs, camel_splits.
    destruct H as [H|[H|[H| ->]]]; [rewrite H ..|]; simpl;
      rewrite ?andb_false_r; reflexivity.
Qed.

Lemma X13_CamelFilter_sub_words_witness :
  text camel_word = Some "getProcessedToken"
  /\ (chars camel_word = true -> exists s, startchar camel_word = Some s)
  /\ exists k',
       Shared.CamelFilter (Shared.Out camel_word (Shared.Co (fun _ => Shared.Done)))
       = Shared.Out camel_word k'
       /\ Shared.observe (Shared.resume k' camel_word)
          = gen_app (camel_subs camel_word "getProcessedToken")
              (Shared.observe
                 (Shared.CamelFilter
                    (Shared.resume (Shared.Co (fun _ => Shared.Done))
                       (left_as camel_word (camel_subs camel_word "getProcessedToken")))))
       /\ Forall (sub_word camel_word "getProcessedToken")
            (camel_subs camel_word "getProcessedToken")
       /\ (islower "getProcessedToken" = true \/ isupper "getProcessedToken" = true
           \/ isdigit "getProcessedToken" = true \/ "getProcessedToken" = "" ->
           camel_subs camel_word "getProcessedToken" = []).
Proof.
  assert (H1 : text camel_word = Some "getProcessedToken") by reflexivity.
  assert (H2 : chars camel_word = true -> exists s, startchar camel_word = Some s)
    by (intros _; exists 0; reflexivity).
  split; [exact H1|]. split; [exact H2|].
  exact (X13_CamelFilter_sub_words camel_word camel_word
           (Shared.Co (fun _ => Shared.Done)) _ H1 H2).
Defined.
